(** * karaoke.py: lyric index, playback clock and render loop

    A shallow embedding of [src/karaoke.py].  Python's [float] is IEEE 754
    binary64, which is what Rocq's primitive [float] is, so timestamps, the
    clock and the offset are primitive floats and every arithmetic operation
    and comparison below is the binary64 one.  Python's [int] is unbounded and
    is modelled by [Z]. *)

From Stdlib Require Import ZArith List String Ascii Bool Lia Sorted Permutation.
From Stdlib Require Import Floats Uint63 QArith.
From Stdlib Require DecimalString.
Import ListNotations.

Set Warnings "-inexact-float".

Local Open Scope Z_scope.

(** ** Lyric index: [Line] and [find_current_index] *)

Module LyricIndex.

(** [@dataclass class Line: t: float; text: str] *)
Record Line := { t : float; text : string }.

Inductive exn := IndexError.

(** What running a piece of Python gives: a value, an exception, or no answer
    within the steps allowed to the model. *)
Inductive outcome (A : Type) : Type :=
| Returned (a : A)
| Raised (e : exn)
| OutOfFuel.
Arguments Returned {A} a.
Arguments Raised {A} e.
Arguments OutOfFuel {A}.

Definition len {A : Type} (l : list A) : Z := Z.of_nat (List.length l).

(** [l[i]] with Python's rules: a negative index counts from the end, and an
    index outside [-len, len) raises IndexError ([None]). *)
Definition getitem {A : Type} (l : list A) (i : Z) : option A :=
  if (0 <=? i) && (i <? len l) then nth_error l (Z.to_nat i)
  else if (- len l <=? i) && (i <? 0) then nth_error l (Z.to_nat (len l + i))
  else None.

(** The [while lo <= hi] loop of [find_current_index].  [reads] records, in
    order, every index at which [lyrics] is subscripted. *)
Fixpoint search_loop (fuel : nat) (lyrics : list Line) (t : float)
    (lo hi ans : Z) (reads : list Z) : outcome (Z * list Z) :=
  match fuel with
  | O => OutOfFuel
  | S fuel' =>
      if lo <=? hi then
        let mid := (lo + hi) / 2 in
        match getitem lyrics mid with
        | None => Raised IndexError
        | Some line =>
            if (LyricIndex.t line <=? t)%float
            then search_loop fuel' lyrics t (mid + 1) hi mid (reads ++ [mid])
            else search_loop fuel' lyrics t lo (mid - 1) ans (reads ++ [mid])
        end
      else Returned (ans, reads)
  end.

(** [find_current_index(lyrics, t)]: [lo, hi = 0, len(lyrics) - 1], [ans = -1],
    then the loop.  The loop halves [hi - lo], so [len(lyrics) + 1] steps are
    more than it can use (see [search_loop_returns]). *)
Definition find_current_index (lyrics : list Line) (t : float) : outcome (Z * list Z) :=
  search_loop (S (List.length lyrics)) lyrics t 0 (len lyrics - 1) (-1) [].

(** The timestamp stored at index [i], for [0 <= i < len]. *)
Definition stamp_at (lyrics : list Line) (i : Z) : option float :=
  if (0 <=? i) && (i <? len lyrics) then option_map t (nth_error lyrics (Z.to_nat i)) else None.

Definition in_bounds (lyrics : list Line) (i : Z) : Prop := 0 <= i < len lyrics.

(** A track is sorted when timestamps never decrease from one entry to a
    later one, for binary64's [<=]. *)
Definition line_le (a b : Line) : Prop := (t a <=? t b)%float = true.
Definition sorted_track (lyrics : list Line) : Prop := StronglySorted line_le lyrics.

(** [r] is the rightmost index whose timestamp is [<= now], or [-1] when no
    entry qualifies. *)
Definition rightmost_le (lyrics : list Line) (now : float) (r : Z) : Prop :=
  -1 <= r < len lyrics /\
  (forall i x, 0 <= i <= r -> stamp_at lyrics i = Some x -> (x <=? now)%float = true) /\
  (forall j x, r < j -> stamp_at lyrics j = Some x -> (x <=? now)%float = false).

End LyricIndex.

(** ** The .lrc parser: [TIMESTAMP] and [parse_lrc]

    A Python [str] is a sequence of code points; [string] holds the code
    points below 256, on which [\d] is the ASCII digits and [str.strip]
    removes U+0009..U+000D, U+001C..U+0020, U+0085 and U+00A0.  [parse_lrc]
    is given the decoded content of the file it opens. *)

Module Lrc.

Import LyricIndex.

Definition LF : ascii := "010"%char.
Definition CR : ascii := "013"%char.

Definition code (c : ascii) : Z := Z.of_N (N_of_ascii c).

(** [\d] *)
Definition is_digit (c : ascii) : bool := (48 <=? code c) && (code c <=? 57).

Definition digit_value (c : ascii) : Z := code c - 48.

(** [str.isspace] of one character *)
Definition is_space (c : ascii) : bool :=
  let n := code c in
  ((9 <=? n) && (n <=? 13)) || ((28 <=? n) && (n <=? 32)) || (n =? 133) || (n =? 160).

(** *** The regular expression

    [TIMESTAMP = re.compile(r"\[(\d{2}):(\d{2})(?:\.(\d{1,2}))?\]")].  A
    match object is its three groups.  The matcher tries the alternatives in
    the order of a backtracking engine: the optional group before its
    absence, two fraction digits before one. *)
Record Match := { group1 : string; group2 : string; group3 : option string }.

Definition lit (c : ascii) (s : string) : option string :=
  match s with
  | String x rest => if Ascii.eqb x c then Some rest else None
  | EmptyString => None
  end.

Definition digit (s : string) : option (ascii * string) :=
  match s with
  | String x rest => if is_digit x then Some (x, rest) else None
  | EmptyString => None
  end.

Definition bind {A B : Type} (o : option A) (k : A -> option B) : option B :=
  match o with Some a => k a | None => None end.

Definition orelse {A : Type} (o alt : option A) : option A :=
  match o with Some a => Some a | None => alt end.

Notation "x <- o ;; k" := (bind o (fun x => k))
  (at level 61, o at next level, right associativity).
Notation "' p <- o ;; k" := (bind o (fun x => let p := x in k))
  (at level 61, p pattern, o at next level, right associativity).

Definition str1 (a : ascii) : string := String a EmptyString.
Definition str2 (a b : ascii) : string := String a (String b EmptyString).

(** [TIMESTAMP.match] at the start of [s]: the groups and what follows the
    match. *)
Definition match_stamp (s : string) : option (Match * string) :=
  r0 <- lit "[" s ;;
  '(m1, r1) <- digit r0 ;;
  '(m2, r2) <- digit r1 ;;
  r3 <- lit ":" r2 ;;
  '(s1, r4) <- digit r3 ;;
  '(s2, r5) <- digit r4 ;;
  let found (g3 : option string) (rest : string) :=
    Some ({| group1 := str2 m1 m2; group2 := str2 s1 s2; group3 := g3 |}, rest) in
  orelse
    (r6 <- lit "." r5 ;;
     '(f1, r7) <- digit r6 ;;
     orelse
       ('(f2, r8) <- digit r7 ;;
        r9 <- lit "]" r8 ;;
        found (Some (str2 f1 f2)) r9)
       (r9 <- lit "]" r7 ;;
        found (Some (str1 f1)) r9))
    (r9 <- lit "]" r5 ;;
     found None r9).

(** [TIMESTAMP.finditer(s)]: the matches from left to right, not
    overlapping.  [skip] counts the characters still covered by the last
    match. *)
Fixpoint finditer_from (s : string) (skip : nat) : list Match :=
  match s with
  | EmptyString => []
  | String c s' =>
      match skip with
      | S k => finditer_from s' k
      | O =>
          match match_stamp s with
          | Some (m, rest) =>
              m :: finditer_from s' (String.length s - String.length rest - 1)
          | None => finditer_from s' 0
          end
      end
  end.

Definition finditer (s : string) : list Match := finditer_from s 0.

(** [TIMESTAMP.sub("", s)]: [s] without its matches. *)
Fixpoint sub_from (s : string) (skip : nat) : string :=
  match s with
  | EmptyString => EmptyString
  | String c s' =>
      match skip with
      | S k => sub_from s' k
      | O =>
          match match_stamp s with
          | Some (_, rest) => sub_from s' (String.length s - String.length rest - 1)
          | None => String c (sub_from s' 0)
          end
      end
  end.

Definition sub_stamps (s : string) : string := sub_from s 0.

(** *** String helpers *)

Fixpoint lstrip_with (p : ascii -> bool) (s : string) : string :=
  match s with
  | EmptyString => EmptyString
  | String c s' => if p c then lstrip_with p s' else s
  end.

Fixpoint rstrip_with (p : ascii -> bool) (s : string) : string :=
  match s with
  | EmptyString => EmptyString
  | String c s' =>
      match rstrip_with p s' with
      | EmptyString => if p c then EmptyString else str1 c
      | r => String c r
      end
  end.

(** [s.strip()] *)
Definition strip (s : string) : string := rstrip_with is_space (lstrip_with is_space s).

(** [s.rstrip("\n")] *)
Definition rstrip_newline (s : string) : string := rstrip_with (Ascii.eqb LF) s.

(** [int(s)] for a string of decimal digits *)
Definition int (s : string) : Z :=
  fold_left (fun acc c => acc * 10 + digit_value c) (list_ascii_of_string s) 0.

(** [float(n)] for an [int] below 2^63 *)
Definition float_of_int (n : Z) : float := of_uint63 (Uint63.of_Z n).

(** *** Reading the file

    [open(path, "r")] translates "\r\n" and "\r" to "\n"; iterating over the
    file gives its lines, each with its "\n" when it has one. *)
Fixpoint universal_newlines (s : string) : string :=
  match s with
  | EmptyString => EmptyString
  | String c s' =>
      if Ascii.eqb c CR then
        match s' with
        | String c' _ =>
            if Ascii.eqb c' LF then universal_newlines s'
            else String LF (universal_newlines s')
        | EmptyString => str1 LF
        end
      else String c (universal_newlines s')
  end.

Fixpoint readlines (s : string) : list string :=
  match s with
  | EmptyString => []
  | String c s' =>
      if Ascii.eqb c LF then str1 c :: readlines s'
      else
        match readlines s' with
        | [] => [str1 c]
        | l :: ls => String c l :: ls
        end
  end.

(** *** [parse_lrc] *)

(** The body of [for m in stamps]: one [Line] per tag. *)
Definition line_of_match (text : string) (m : Match) : Line :=
  let mm := int (group1 m) in
  let ss := int (group2 m) in
  let cc := match group3 m with
            | Some g => if (String.length g =? 0)%nat then "0"%string else g
            | None => "0"%string
            end in
  let frac :=
    if (String.length cc =? 1)%nat
    then (float_of_int (int cc) / 10)%float
    else (float_of_int (int (substring 0 2 cc)) / 100)%float in
  {| t := (float_of_int (mm * 60 + ss) + frac)%float; text := text |}.

(** The body of [for raw in f]. *)
Definition lines_of_raw (raw0 : string) : list Line :=
  let raw := rstrip_newline raw0 in
  let stamps := finditer raw in
  match stamps with
  | [] => []
  | _ => let text := strip (sub_stamps raw) in map (line_of_match text) stamps
  end.

(** [lines] as it stands before [lines.sort]. *)
Definition collect (data : string) : list Line :=
  flat_map lines_of_raw (readlines (universal_newlines data)).

(** [list.sort(key=...)] is Python's built-in stable sort, which compares
    keys with [<] only.  It is modelled by the stable insertion sort: an
    element is moved behind an element that follows it only when that
    element's key is strictly smaller than its own. *)
Fixpoint insert_by {A : Type} (key : A -> float) (x : A) (l : list A) : list A :=
  match l with
  | [] => [x]
  | y :: l' => if (key y <? key x)%float then y :: insert_by key x l' else x :: l
  end.

Fixpoint sort_by {A : Type} (key : A -> float) (l : list A) : list A :=
  match l with
  | [] => []
  | x :: l' => insert_by key x (sort_by key l')
  end.

Definition parse_lrc (data : string) : list Line := sort_by t (collect data).

End Lrc.

(** ** The playback clock

    [karaoke] keeps the clock in two local variables, [start] (the anchor, a
    [time.perf_counter()] reading) and [offset] (the value shown in the title
    line).  The four places that touch them are written here once, over the
    arithmetic they use: the program runs them on binary64, and the rationals
    give the reading in which no operation rounds. *)

Class Arith (R : Type) : Type := { plus : R -> R -> R; minus : R -> R -> R }.

#[global] Instance binary64 : Arith float := {| plus := PrimFloat.add; minus := PrimFloat.sub |}.
#[global] Instance exact : Arith Q := {| plus := Qplus; minus := Qminus |}.

Module Clock.

Section Over.

Context {R : Type} `{Arith R}.

Record State : Type := { start : R; offset : R }.

(** [start = time.perf_counter() + offset], with [offset] the [--offset]
    argument. *)
Definition new (perf_counter initial_offset : R) : State :=
  {| start := plus perf_counter initial_offset; offset := initial_offset |}.

(** [now = time.perf_counter() - start] *)
Definition elapsed (c : State) (perf_counter : R) : R := minus perf_counter (start c).

(** [offset += step; start -= step] *)
Definition nudge_up (step : R) (c : State) : State :=
  {| start := minus (start c) step; offset := plus (offset c) step |}.

(** [offset -= step; start += step] *)
Definition nudge_down (step : R) (c : State) : State :=
  {| start := plus (start c) step; offset := minus (offset c) step |}.

End Over.

Arguments State R : clear implicits.

End Clock.

(** ** The session: start-up and the render loop of [karaoke]

    What [karaoke] reads from outside is given to the model as data: the
    content of the lyrics file, whether [subprocess.Popen] finds the player,
    and for each pass through [while True] the reading of
    [time.perf_counter()], what [stdscr.getch()] gives and what
    [player.poll()] gives.  The curses drawing calls change none of the loop's
    variables and are taken to return; the [finally] block, which stops a
    player still running, is outside the model. *)

Module Render.

Import LyricIndex Lrc.

(** [ord('q')], ESC, and curses' [KEY_UP] and [KEY_DOWN] *)
Definition ord_q : Z := 113.
Definition ESC : Z := 27.
Definition KEY_UP : Z := 259.
Definition KEY_DOWN : Z := 258.

(** The nudge step, and the time allowed after the last lyric once the
    player has exited. *)
Definition step : float := 0.05%float.
Definition grace : float := 1%float.

Inductive getch_result := Key (ch : Z) | KeyboardInterrupt.

Record TickInput := {
  perf_counter : float;
  getch : getch_result;
  poll : option Z
}.

(** The variables that live across iterations. *)
Record Loop := { clock : Clock.State float; active_idx : Z }.

Inductive stop := Quit | PlaybackEnded.

(** How a pass ends: at [time.sleep(0.02)] with the loop variables [s], at a
    [break] (with the index it has drawn), or in an exception. *)
Inductive tick_result :=
| Continue (s : Loop)
| Break (why : stop) (drawn : Z)
| Crash (e : exn)
| Stuck.

(** The [if ch != -1:] block: [None] is [break], [Some c] the clock
    afterwards. *)
Definition handle_key (ch : Z) (c : Clock.State float) : option (Clock.State float) :=
  if negb (ch =? -1) then
    if (ch =? ord_q) || (ch =? ESC) then None
    else if ch =? KEY_UP then Some (Clock.nudge_up step c)
    else if ch =? KEY_DOWN then Some (Clock.nudge_down step c)
    else Some c
  else Some c.

(** [player.poll() is not None and now > last_stamp + 1.0] *)
Definition playback_ended (poll : option Z) (now last_stamp : float) : bool :=
  match poll with
  | Some _ => (last_stamp + grace <? now)%float
  | None => false
  end.

(** One pass through the body of [while True]. *)
Definition tick (lyrics : list Line) (last_stamp : float) (s : Loop) (i : TickInput)
  : tick_result :=
  let now := Clock.elapsed (clock s) (perf_counter i) in
  match find_current_index lyrics now with
  | Returned (idx, _) =>
      let active := if negb (idx =? active_idx s) then idx else active_idx s in
      let ch := match getch i with Key ch => ch | KeyboardInterrupt => ord_q end in
      match handle_key ch (clock s) with
      | None => Break Quit active
      | Some c =>
          if playback_ended (poll i) now last_stamp then Break PlaybackEnded active
          else Continue {| clock := c; active_idx := active |}
      end
  | Raised e => Crash e
  | OutOfFuel => Stuck
  end.

(** What the session does that can be seen from outside, in order: the
    player is launched, a frame is drawn. *)
Inductive event :=
| Launch
| Frame (now : float) (idx : Z).

Inductive ending :=
| SystemExit (message : string)
| Stopped (why : stop)
| Crashed (e : exn)
| Running (s : Loop).

Definition no_lyrics : string := "No timestamped lyrics found in .lrc".
Definition no_player : string :=
  "ffplay not found. Install FFmpeg and ensure 'ffplay' is in PATH.".

(** The loop, over the passes for which the environment is given. *)
Fixpoint run (lyrics : list Line) (last_stamp : float) (s : Loop) (inputs : list TickInput)
  : list event * ending :=
  match inputs with
  | [] => ([], Running s)
  | i :: rest =>
      let now := Clock.elapsed (clock s) (perf_counter i) in
      match tick lyrics last_stamp s i with
      | Continue s' =>
          let '(events, e) := run lyrics last_stamp s' rest in
          (Frame now (active_idx s') :: events, e)
      | Break why drawn => ([Frame now drawn], Stopped why)
      | Crash e => ([], Crashed e)
      | Stuck => ([], Running s)
      end
  end.

(** [karaoke(stdscr, audio, lrc, offset, tempo, pitch)]: [data] is the content
    of the file [lrc], [player_found] tells whether [subprocess.Popen] returns
    or raises FileNotFoundError, [started] is the [time.perf_counter()]
    reading taken for [start]. *)
Definition karaoke (data : string) (player_found : bool) (started offset : float)
    (inputs : list TickInput) : list event * ending :=
  let lyrics := parse_lrc data in
  match lyrics with
  | [] => ([], SystemExit no_lyrics)
  | first :: _ =>
      let last_stamp := t (last lyrics first) in
      if player_found then
        let s := {| clock := Clock.new started offset; active_idx := -1 |} in
        let '(events, e) := run lyrics last_stamp s inputs in
        (Launch :: events, e)
      else ([], SystemExit no_player)
  end.

End Render.

(** ** What [karaoke] puts on the screen

    The block of lyric lines of each frame (the lines around the active one
    and the rows they are written to) and the text of the progress bar of
    [draw_progress].  [h] and [w] are what [stdscr.getmaxyx()] gives. *)

Module Screen.

Import LyricIndex Lrc.

(** U+00B7, the dot in front of the previous and the next line. *)
Definition middle_dot : ascii := "183"%char.

(** [prefix] for the relative position [rel]. *)
Definition prefix_of (rel : Z) : string :=
  if rel =? 0 then "> "%string
  else if rel =? -1 then String middle_dot " "
  else if rel =? 1 then String middle_dot " "
  else "  "%string.

(** The body of [for rel in (-2, -1, 0, 1, 2)]: what one [rel] appends. *)
Definition shown_at (lyrics : list Line) (active_idx rel : Z) : list string :=
  let j := active_idx + rel in
  if (0 <=? j) && (j <? len lyrics) then
    match getitem lyrics j with
    | Some line => [(prefix_of rel ++ text line)%string]
    | None => []
    end
  else [].

Definition lines_to_show (lyrics : list Line) (active_idx : Z) : list string :=
  flat_map (shown_at lyrics active_idx) [-2; -1; 0; 1; 2].

(** One [stdscr.addstr(y, 0, ...)] of the block, with A_BOLD on or off. *)
Record Cell := { row : Z; bold : bool; shown : string }.

Fixpoint first_chars (n : nat) (s : string) : string :=
  match n, s with
  | S k, String c s' => String c (first_chars k s')
  | _, _ => EmptyString
  end.

Fixpoint skip_chars (n : nat) (s : string) : string :=
  match n, s with
  | S k, String _ s' => skip_chars k s'
  | _, _ => s
  end.

(** [s[:n]] for [n >= 0] *)
Definition take (n : Z) (s : string) : string := first_chars (Z.to_nat n) s.

(** [s[n:]] for [n >= 0] *)
Definition drop (n : Z) (s : string) : string := skip_chars (Z.to_nat n) s.

(** [for i, line in enumerate(lines_to_show)], from row [y]: the loop breaks
    at the first row with [y >= h - 1]. *)
Fixpoint place (h w y : Z) (lines : list string) : list Cell :=
  match lines with
  | [] => []
  | line :: rest =>
      if y >=? h - 1 then []
      else {| row := y; bold := String.prefix "> " line; shown := take (Z.max 0 (w - 1)) line |}
             :: place h w (y + 1) rest
  end.

(** [y_start = max(3, (h // 2) - len(lines_to_show) // 2)] and the loop. *)
Definition lyric_block (h w : Z) (lines : list string) : list Cell :=
  place h w (Z.max 3 (h / 2 - len lines / 2)) lines.

(** *** [draw_progress]

    Python's [max(a, b)] and [min(a, b)] keep [a] unless [b] is greater
    (smaller). *)
Definition py_max (a b : float) : float := if (a <? b)%float then b else a.
Definition py_min (a b : float) : float := if (b <? a)%float then b else a.

(** [frac = 0.0 if total_s <= 0 else min(1.0, max(0.0, now_s / total_s))] *)
Definition progress_fraction (now_s total_s : float) : float :=
  if (total_s <=? 0)%float then 0%float
  else py_min 1 (py_max 0 (now_s / total_s)).

(** [c * n]: empty when [n <= 0]. *)
Definition times (c : ascii) (n : Z) : string := string_of_list_ascii (repeat c (Z.to_nat n)).

(** [bar = "[" + "#" * filled + "-" * ((width - 2) - filled) + "]"], with
    [width] already [max(10, width)]. *)
Definition plain_bar (width filled : Z) : string :=
  ("[" ++ times "#" filled ++ times "-" ((width - 2) - filled) ++ "]")%string.

(** [format(n, "02d")] *)
Definition fmt02 (n : Z) : string :=
  match n with
  | Z0 => "00"%string
  | Zpos p =>
      let digits := DecimalString.NilZero.string_of_uint (Pos.to_uint p) in
      if (String.length digits <? 2)%nat then ("0" ++ digits)%string else digits
  | Zneg p => ("-" ++ DecimalString.NilZero.string_of_uint (Pos.to_uint p))%string
  end.

(** [label = f" {mins:02d}:{secs:02d} / {tmins:02d}:{tsecs:02d} "] *)
Definition time_label (mins secs tmins tsecs : Z) : string :=
  (" " ++ fmt02 mins ++ ":" ++ fmt02 secs ++ " / " ++ fmt02 tmins ++ ":" ++ fmt02 tsecs ++ " ")%string.

Definition slen (s : string) : Z := Z.of_nat (String.length s).

(** [if len(label) < len(bar) - 2:] the label replaces the middle of the
    bar. *)
Definition fit_label (bar label : string) : string :=
  if slen label <? slen bar - 2 then
    let start := (slen bar - slen label) / 2 in
    (take start bar ++ label ++ drop (start + slen label) bar)%string
  else bar.

(** The string [draw_progress] hands to [stdscr.addstr], from the width it
    is given and the five integers it computes from the two times:
    [filled] and the minutes and seconds of the label. *)
Definition progress_text (width filled mins secs tmins tsecs : Z) : string :=
  let width := Z.max 10 width in
  fit_label (plain_bar width filled) (time_label mins secs tmins tsecs).

End Screen.

(** ** The command line of the player: [build_ffplay_cmd]

    Three operations of Python itself are taken as given: [2 ** x] on floats
    ([None] when it raises OverflowError), and the two ways a float is
    formatted in the f-strings, [{x}] and [{x:.6f}]. *)

Module Player.

Inductive error := OverflowError | ZeroDivisionError.

Section Builtins.

Variable pow2 : float -> option float.
Variable str_float : float -> string.
Variable fixed6 : float -> string.

(** ["ffplay", "-nodisp", "-autoexit", "-loglevel", "quiet"] *)
Definition base_args : list string :=
  ["ffplay"; "-nodisp"; "-autoexit"; "-loglevel"; "quiet"]%string.

(** The [if abs(pitch_semitones) > 1e-6:] block: the filters it appends, or
    the exception of [2 ** ...] or of [1/ratio]. *)
Definition pitch_filters (pitch_semitones : float) : error + list string :=
  if (1e-6 <? abs pitch_semitones)%float then
    match pow2 (pitch_semitones / 12)%float with
    | None => inl OverflowError
    | Some ratio =>
        if (ratio =? 0)%float then inl ZeroDivisionError
        else inr [ ("asetrate=sr*" ++ str_float ratio)%string;
                   ("atempo=" ++ fixed6 (1 / ratio)%float)%string ]
    end
  else inr [].

(** The [if abs(tempo - 1.0) > 1e-6:] block. *)
Definition tempo_filters (tempo : float) : list string :=
  if (1e-6 <? abs (tempo - 1))%float then [("atempo=" ++ fixed6 tempo)%string] else [].

Definition build_ffplay_cmd (audio : string) (tempo pitch_semitones : float)
  : error + list string :=
  match pitch_filters pitch_semitones with
  | inl e => inl e
  | inr from_pitch =>
      let afilters := from_pitch ++ tempo_filters tempo in
      let args := base_args in
      let args := match afilters with
                  | [] => args
                  | _ => args ++ ["-af"%string; String.concat "," afilters]
                  end in
      inr (args ++ [audio])
  end.

End Builtins.

End Player.

(** ** Vocabulary of the properties

    The predicates and the sample data in which the properties below are
    stated. *)

Import LyricIndex Lrc Render.

(** Sortedness and well-formedness of keys, for [sort_by]. *)
Definition key_le {A : Type} (key : A -> float) (a b : A) : Prop :=
  (key a <=? key b)%float = true.
Definition key_ok {A : Type} (key : A -> float) (a : A) : Prop := is_nan (key a) = false.

(** The groups of a match: two digits, two digits, and no fraction or a
    fraction of one or two digits. *)
Definition valid_frac (g : option string) : Prop :=
  g = None \/
  (exists f1, is_digit f1 = true /\ g = Some (str1 f1)) \/
  (exists f1 f2, is_digit f1 = true /\ is_digit f2 = true /\ g = Some (str2 f1 f2)).

Definition valid_match (m : Match) : Prop :=
  (exists m1 m2, is_digit m1 = true /\ is_digit m2 = true /\ group1 m = str2 m1 m2) /\
  (exists s1 s2, is_digit s1 = true /\ is_digit s2 = true /\ group2 m = str2 s1 s2) /\
  valid_frac (group3 m).

(** The timestamp of a tag with whole seconds [n] and fraction digits [f],
    read as tenths or as hundredths. *)
Definition stamp_value (n f : Z) (tenths : bool) : float :=
  (float_of_int n + (if tenths then float_of_int f / 10 else float_of_int f / 100))%float.

(** A bounded universal check, for the finitely many values a tag can take. *)
Fixpoint all_below (n : nat) (p : Z -> bool) : bool :=
  match n with
  | O => true
  | S k => p (Z.of_nat k) && all_below k p
  end.

Definition all_upto (bound : Z) (p : Z -> bool) : bool := all_below (Z.to_nat bound) p.

Definition stamp_ok (tenths : bool) (n f : Z) : bool := negb (is_nan (stamp_value n f tenths)).

Definition stamps_checked (tenths : bool) : bool :=
  all_upto 6040 (fun n => all_upto (if tenths then 10 else 100) (stamp_ok tenths n)).




(** The lyrics of the specification's scenario. *)
Definition scenario : string :=
  ("[00:01.50]Hello" ++ str1 LF ++ "[00:03]World" ++ str1 LF ++ "[00:03]Again")%string.

Definition scenario_track : list Line :=
  [ {| t := 1.5; text := "Hello" |}; {| t := 3; text := "World" |};
    {| t := 3; text := "Again" |} ].


(** A pass in which the player has exited, and a loop at its start. *)
Definition ended_input : TickInput :=
  {| perf_counter := 5; getch := Key (-1); poll := Some 0 |}.

Definition fresh_loop : Loop :=
  {| clock := {| Clock.start := 0%float; Clock.offset := 0%float |}; active_idx := -1 |}.




(** The time a tag denotes, in hundredths of a second, read off the groups
    of its match. *)
Definition centis (m : Match) : Z :=
  (int (group1 m) * 60 + int (group2 m)) * 100 +
  match group3 m with
  | None => 0
  | Some g => if (String.length g =? 1)%nat then 10 * int g else int g
  end.

(** The timestamp the parser computes for [c] hundredths of a second written
    with two fraction digits. *)
Definition centi_stamp (c : Z) : float := stamp_value (c / 100) (c mod 100) false.

(** For every whole second [n] and fraction [f]: the timestamp lies in
    [0, 6040), it is below the timestamp of the next hundredth, and one
    fraction digit gives the same float as that digit followed by 0. *)
Definition stamp_step_ok (n f : Z) : bool :=
  let x := stamp_value n f false in
  (0 <=? x)%float && (x <? 6040)%float &&
  (if f <? 99 then (x <? stamp_value n (f + 1) false)%float
   else (x <? stamp_value (n + 1) 0 false)%float).

Definition tenths_ok (n f : Z) : bool :=
  PrimFloat.Leibniz.eqb (stamp_value n f true) (stamp_value n (10 * f) false).

Definition stamp_row_ok (n : Z) : bool :=
  all_upto 100 (stamp_step_ok n) && all_upto 10 (tenths_ok n).



(** A text in which every "\n" is written "\r\n", or "\r". *)
Fixpoint dos_newlines (s : string) : string :=
  match s with
  | EmptyString => EmptyString
  | String c s' =>
      if Ascii.eqb c LF then String CR (String LF (dos_newlines s'))
      else String c (dos_newlines s')
  end.

Fixpoint mac_newlines (s : string) : string :=
  match s with
  | EmptyString => EmptyString
  | String c s' =>
      if Ascii.eqb c LF then String CR (mac_newlines s')
      else String c (mac_newlines s')
  end.

(** No character of [s] satisfies [p]. *)
Fixpoint free_of (p : ascii -> bool) (s : string) : bool :=
  match s with
  | EmptyString => true
  | String c s' => negb (p c) && free_of p s'
  end.

Definition is_bracket (c : ascii) : bool := Ascii.eqb c "[".
Definition is_cr (c : ascii) : bool := Ascii.eqb c CR.

(** [rest] is what is left of [s] after its first [n] characters. *)
Definition leaves (rest s : string) (n : nat) : Prop :=
  exists pre, s = (pre ++ rest)%string /\ String.length pre = n.

(** Whether the last line of [s] lacks its "\n". *)
Fixpoint open_end (s : string) : bool :=
  match s with
  | EmptyString => false
  | String c EmptyString => negb (Ascii.eqb c LF)
  | String _ s' => open_end s'
  end.
(** ** The order of binary64 values

    [PrimFloat.leb], [ltb] and [eqb] are specified by [SFcompare] on
    [spec_float]; the facts the lyric index needs are proved there and
    transported with the specification of the primitive operations. *)

Module F64.

Local Open Scope float_scope.

Ltac cmp_split :=
  repeat match goal with
  | H : context [PosDef.Pos.compare_cont Eq ?a ?b] |- _ =>
      change (PosDef.Pos.compare_cont Eq a b) with (Pos.compare a b) in H
  | |- context [PosDef.Pos.compare_cont Eq ?a ?b] =>
      change (PosDef.Pos.compare_cont Eq a b) with (Pos.compare a b)
  end;
  repeat match goal with
  | H : context [Z.compare ?a ?b] |- _ => destruct (Z.compare_spec a b)
  | |- context [Z.compare ?a ?b] => destruct (Z.compare_spec a b)
  | H : context [Pos.compare ?a ?b] |- _ => destruct (Pos.compare_spec a b)
  | |- context [Pos.compare ?a ?b] => destruct (Pos.compare_spec a b)
  end;
  subst; simpl in *; try discriminate; try reflexivity; try lia.

Ltac sf_cases x :=
  destruct x as [[|]|[|]| |[|] ? ?]; simpl in *; try discriminate; try reflexivity.

Lemma SFleb_trans x y z :
  SFleb x y = true -> SFleb y z = true -> SFleb x z = true.
Proof.
  unfold SFleb.
  sf_cases x; sf_cases y; sf_cases z; intros; cmp_split.
Qed.

Lemma SFltb_SFleb_false x y : SFltb x y = true -> SFleb y x = false.
Proof.
  unfold SFltb, SFleb.
  sf_cases x; sf_cases y; intros; cmp_split.
Qed.

Lemma SFltb_SFleb x y : SFltb x y = true -> SFleb x y = true.
Proof.
  unfold SFltb, SFleb.
  sf_cases x; sf_cases y; intros; cmp_split.
Qed.

Lemma SFleb_total x y :
  SFeqb x x = true -> SFeqb y y = true -> SFltb y x = false -> SFleb x y = true.
Proof.
  unfold SFltb, SFleb, SFeqb.
  sf_cases x; sf_cases y; intros; cmp_split.
Qed.

Lemma SFltb_SFeqb_class x y k :
  SFltb y x = true -> SFeqb x k = true -> SFeqb y k = false.
Proof.
  unfold SFltb, SFeqb.
  sf_cases x; sf_cases y; sf_cases k; intros; cmp_split.
Qed.

Lemma leb_trans x y z : (x <=? y) = true -> (y <=? z) = true -> (x <=? z) = true.
Proof. rewrite !FloatAxioms.leb_spec. apply SFleb_trans. Qed.

Lemma ltb_leb_false x y : (x <? y) = true -> (y <=? x) = false.
Proof. rewrite FloatAxioms.ltb_spec, FloatAxioms.leb_spec. apply SFltb_SFleb_false. Qed.

Lemma ltb_leb x y : (x <? y) = true -> (x <=? y) = true.
Proof. rewrite FloatAxioms.ltb_spec, FloatAxioms.leb_spec. apply SFltb_SFleb. Qed.

Lemma leb_total x y :
  is_nan x = false -> is_nan y = false -> (y <? x) = false -> (x <=? y) = true.
Proof.
  unfold is_nan. rewrite !negb_false_iff, !FloatAxioms.eqb_spec, FloatAxioms.ltb_spec, FloatAxioms.leb_spec.
  apply SFleb_total.
Qed.

Lemma ltb_eqb_class x y k : (y <? x) = true -> (x =? k) = true -> (y =? k) = false.
Proof. rewrite FloatAxioms.ltb_spec, !FloatAxioms.eqb_spec. apply SFltb_SFeqb_class. Qed.

End F64.


(** ** Facts about [find_current_index] *)

Section IndexFacts.
Local Open Scope Z_scope.

Lemma getitem_in_bounds {A : Type} (l : list A) (i : Z) :
  0 <= i < len l -> exists x, getitem l i = Some x /\ nth_error l (Z.to_nat i) = Some x.
Proof.
  intros Hi. unfold getitem.
  replace ((0 <=? i) && (i <? len l)) with true
    by (symmetry; apply andb_true_iff; split; [apply Z.leb_le | apply Z.ltb_lt]; lia).
  destruct (nth_error l (Z.to_nat i)) as [x|] eqn:E.
  - exists x. split; reflexivity.
  - apply nth_error_None in E. unfold len in Hi. lia.
Qed.

Lemma stamp_at_nth (lyrics : list Line) (i : Z) (line : Line) :
  0 <= i < len lyrics -> nth_error lyrics (Z.to_nat i) = Some line ->
  stamp_at lyrics i = Some (t line).
Proof.
  intros Hi E. unfold stamp_at.
  replace ((0 <=? i) && (i <? len lyrics)) with true
    by (symmetry; apply andb_true_iff; split; [apply Z.leb_le | apply Z.ltb_lt]; lia).
  rewrite E. reflexivity.
Qed.

Lemma stamp_at_inv (lyrics : list Line) (i : Z) (x : float) :
  stamp_at lyrics i = Some x ->
  0 <= i < len lyrics /\ exists line, nth_error lyrics (Z.to_nat i) = Some line /\ t line = x.
Proof.
  unfold stamp_at. destruct ((0 <=? i) && (i <? len lyrics)) eqn:B; [|discriminate].
  apply andb_true_iff in B. destruct B as [B1 B2].
  apply Z.leb_le in B1. apply Z.ltb_lt in B2.
  destruct (nth_error lyrics (Z.to_nat i)) as [line|]; simpl; [|discriminate].
  intros [= <-]. split; [lia|]. exists line. split; reflexivity.
Qed.

Lemma midpoint_between (lo hi : Z) : lo <= hi -> lo <= (lo + hi) / 2 <= hi.
Proof.
  intros H. split.
  - apply Z.div_le_lower_bound; lia.
  - apply Z.div_le_upper_bound; lia.
Qed.

(** The loop returns whenever it is given more steps than [hi - lo + 1], it
    never raises, and it subscripts [lyrics] only inside [0, len). *)
Lemma search_loop_returns (lyrics : list Line) (now : float) :
  forall (fuel : nat) (lo hi ans : Z) (reads : list Z),
    0 <= lo -> hi < len lyrics -> -1 <= ans < len lyrics ->
    Forall (in_bounds lyrics) reads ->
    (Z.to_nat (hi - lo + 1) < fuel)%nat ->
    exists a r,
      search_loop fuel lyrics now lo hi ans reads = Returned (a, r) /\
      -1 <= a < len lyrics /\ Forall (in_bounds lyrics) r.
Proof.
  induction fuel as [|fuel IH]; intros lo hi ans reads Hlo Hhi Hans Hreads Hfuel.
  - lia.
  - simpl. destruct (lo <=? hi) eqn:Hcmp.
    + apply Z.leb_le in Hcmp.
      pose proof (midpoint_between lo hi Hcmp) as Hmid.
      set (mid := (lo + hi) / 2) in *.
      destruct (getitem_in_bounds lyrics mid) as [line [Hget _]]; [lia|].
      rewrite Hget.
      assert (Hreads' : Forall (in_bounds lyrics) (reads ++ [mid])).
      { apply Forall_app. split; [assumption|].
        constructor; [unfold in_bounds; lia | constructor]. }
      destruct (t line <=? now)%float; apply IH; try assumption; lia.
    + exists ans, reads. auto.
Qed.

Lemma StronglySorted_nth {A : Type} (R : A -> A -> Prop) (l : list A) :
  StronglySorted R l ->
  forall (i j : nat) (a b : A),
    (i < j)%nat -> nth_error l i = Some a -> nth_error l j = Some b -> R a b.
Proof.
  induction 1 as [|x l Hs IH Hall]; intros i j a b Hij Ha Hb.
  - destruct i; discriminate.
  - destruct j as [|j]; [lia|]. simpl in Hb. destruct i as [|i].
    + simpl in Ha. injection Ha as <-.
      rewrite Forall_forall in Hall. apply Hall. eapply nth_error_In; eassumption.
    + simpl in Ha. apply (IH i j); [lia | assumption | assumption].
Qed.

Lemma sorted_track_stamps (lyrics : list Line) (i j : Z) (x y : float) :
  sorted_track lyrics -> i < j ->
  stamp_at lyrics i = Some x -> stamp_at lyrics j = Some y ->
  (x <=? y)%float = true.
Proof.
  intros Hs Hij Hx Hy.
  apply stamp_at_inv in Hx. destruct Hx as [Hi [a [Ha <-]]].
  apply stamp_at_inv in Hy. destruct Hy as [Hj [b [Hb <-]]].
  apply (StronglySorted_nth line_le lyrics Hs (Z.to_nat i) (Z.to_nat j)); [lia | assumption | assumption].
Qed.

(** On a sorted track the loop keeps [ans = lo - 1], every entry left of [lo]
    at or before [now] and every entry right of [hi] after it. *)
Lemma search_loop_rightmost (lyrics : list Line) (now : float) :
  sorted_track lyrics ->
  forall (fuel : nat) (lo hi ans : Z) (reads : list Z) (a : Z) (r : list Z),
    search_loop fuel lyrics now lo hi ans reads = Returned (a, r) ->
    0 <= lo -> hi < len lyrics -> lo <= hi + 1 -> ans = lo - 1 ->
    (forall i x, 0 <= i < lo -> stamp_at lyrics i = Some x -> (x <=? now)%float = true) ->
    (forall j x, hi < j -> stamp_at lyrics j = Some x -> (x <=? now)%float = false) ->
    rightmost_le lyrics now a.
Proof.
  intros Hs. induction fuel as [|fuel IH];
    intros lo hi ans reads a r Hrun Hlo Hhi Hlohi Hans Hleft Hright.
  - discriminate.
  - simpl in Hrun. destruct (lo <=? hi) eqn:Hcmp.
    + apply Z.leb_le in Hcmp.
      pose proof (midpoint_between lo hi Hcmp) as Hmid.
      set (mid := (lo + hi) / 2) in *.
      destruct (getitem_in_bounds lyrics mid) as [line [Hget Hnth]]; [lia|].
      rewrite Hget in Hrun.
      pose proof (stamp_at_nth lyrics mid line ltac:(lia) Hnth) as Hstamp.
      destruct (t line <=? now)%float eqn:Hle.
      * apply (IH _ _ _ _ _ _ Hrun); try lia.
        -- intros i x Hi Hx. destruct (Z.eq_dec i mid) as [->|Hne].
           ++ rewrite Hstamp in Hx. injection Hx as <-. assumption.
           ++ apply F64.leb_trans with (y := t line); [|assumption].
              apply (sorted_track_stamps lyrics i mid); [assumption | lia | assumption | assumption].
        -- assumption.
      * apply (IH _ _ _ _ _ _ Hrun); try lia.
        -- assumption.
        -- intros j x Hj Hx. destruct (Z.eq_dec j mid) as [->|Hne].
           ++ rewrite Hstamp in Hx. injection Hx as <-. assumption.
           ++ destruct (x <=? now)%float eqn:Hx'; [|reflexivity].
              rewrite <- Hle. symmetry.
              apply F64.leb_trans with (y := x); [|assumption].
              apply (sorted_track_stamps lyrics mid j); [assumption | lia | assumption | assumption].
    + apply Z.leb_gt in Hcmp. injection Hrun as <- <-.
      unfold rightmost_le. split; [lia|]. split.
      * intros i x Hi. apply Hleft. lia.
      * intros j x Hj. apply Hright. lia.
Qed.

Lemma find_current_index_returns (lyrics : list Line) (now : float) :
  exists a r,
    find_current_index lyrics now = Returned (a, r) /\
    -1 <= a < len lyrics /\ Forall (in_bounds lyrics) r.
Proof.
  unfold find_current_index. apply search_loop_returns.
  - lia.
  - lia.
  - unfold len. lia.
  - constructor.
  - unfold len. lia.
Qed.

Lemma find_current_index_sorted (lyrics : list Line) (now : float) (a : Z) (r : list Z) :
  sorted_track lyrics ->
  find_current_index lyrics now = Returned (a, r) ->
  rightmost_le lyrics now a.
Proof.
  intros Hs Hrun. unfold find_current_index in Hrun.
  apply (search_loop_rightmost lyrics now Hs _ _ _ _ _ _ _ Hrun).
  - lia.
  - lia.
  - unfold len. lia.
  - reflexivity.
  - intros i x Hi. lia.
  - intros j x Hj Hx. apply stamp_at_inv in Hx. lia.
Qed.

(** With [ans = lo - 1] on entry, the loop returns an index in [lo - 1, hi]. *)
Lemma search_loop_range (lyrics : list Line) (now : float) :
  forall (fuel : nat) (lo hi ans : Z) (reads : list Z) (a : Z) (r : list Z),
    search_loop fuel lyrics now lo hi ans reads = Returned (a, r) ->
    lo <= hi + 1 -> ans = lo - 1 -> lo - 1 <= a <= hi.
Proof.
  induction fuel as [|fuel IH]; intros lo hi ans reads a r Hrun Hlohi Hans.
  - discriminate.
  - simpl in Hrun. destruct (lo <=? hi) eqn:Hcmp.
    + apply Z.leb_le in Hcmp.
      pose proof (midpoint_between lo hi Hcmp) as Hmid.
      set (mid := (lo + hi) / 2) in *.
      destruct (getitem lyrics mid) as [line|]; [|discriminate].
      destruct (t line <=? now)%float; apply IH in Hrun; lia.
    + apply Z.leb_gt in Hcmp. injection Hrun as <- <-. lia.
Qed.

(** Two runs of the loop from one state, at times [t1 <= t2]: they take the
    same branch until an entry lies after [t1] and not after [t2], where the
    first run goes left of [mid] and the second stays at or right of it. *)
Lemma search_loop_monotone (lyrics : list Line) (t1 t2 : float) :
  (t1 <=? t2)%float = true ->
  forall (fuel1 fuel2 : nat) (lo hi ans : Z) (reads1 reads2 : list Z) (a1 a2 : Z) (r1 r2 : list Z),
    search_loop fuel1 lyrics t1 lo hi ans reads1 = Returned (a1, r1) ->
    search_loop fuel2 lyrics t2 lo hi ans reads2 = Returned (a2, r2) ->
    lo <= hi + 1 -> ans = lo - 1 -> a1 <= a2.
Proof.
  intros Hle. induction fuel1 as [|fuel1 IH];
    intros fuel2 lo hi ans reads1 reads2 a1 a2 r1 r2 Hrun1 Hrun2 Hlohi Hans.
  - discriminate.
  - destruct fuel2 as [|fuel2]; [discriminate|].
    simpl in Hrun1, Hrun2. destruct (lo <=? hi) eqn:Hcmp.
    + apply Z.leb_le in Hcmp.
      pose proof (midpoint_between lo hi Hcmp) as Hmid.
      set (mid := (lo + hi) / 2) in *.
      destruct (getitem lyrics mid) as [line|]; [|discriminate].
      destruct (t line <=? t1)%float eqn:H1.
      * rewrite (F64.leb_trans _ _ _ H1 Hle) in Hrun2.
        apply (IH _ _ _ _ _ _ _ _ _ _ Hrun1 Hrun2); lia.
      * destruct (t line <=? t2)%float eqn:H2.
        -- apply search_loop_range in Hrun1; [|lia|lia].
           apply search_loop_range in Hrun2; [|lia|lia].
           lia.
        -- apply (IH _ _ _ _ _ _ _ _ _ _ Hrun1 Hrun2); lia.
    + injection Hrun1 as <- <-. injection Hrun2 as <- <-. lia.
Qed.

End IndexFacts.

(** ** Facts about the parser *)

Section SortFacts.

Context {A : Type} (key : A -> float).

Lemma insert_by_perm (x : A) (l : list A) : Permutation (x :: l) (insert_by key x l).
Proof.
  induction l as [|y l IH]; simpl.
  - apply Permutation_refl.
  - destruct (key y <? key x)%float.
    + apply perm_trans with (y :: x :: l); [apply perm_swap|].
      apply perm_skip. exact IH.
    + apply Permutation_refl.
Qed.

Lemma sort_by_perm (l : list A) : Permutation l (sort_by key l).
Proof.
  induction l as [|x l IH]; simpl.
  - apply perm_nil.
  - apply perm_trans with (x :: sort_by key l).
    + apply perm_skip. exact IH.
    + apply insert_by_perm.
Qed.

Lemma insert_by_sorted (x : A) (l : list A) :
  key_ok key x -> Forall (key_ok key) l ->
  StronglySorted (key_le key) l -> StronglySorted (key_le key) (insert_by key x l).
Proof.
  intros Hx Hl Hs. induction Hs as [|y l Hs IH Hall]; simpl.
  - constructor; constructor.
  - inversion Hl as [|? ? Hy Hl']; subst.
    destruct (key y <? key x)%float eqn:Hlt.
    + constructor; [apply IH; assumption|].
      apply (Permutation_Forall (insert_by_perm x l)).
      constructor; [|assumption].
      unfold key_le. apply F64.ltb_leb. assumption.
    + assert (Hxy : key_le key x y) by (apply F64.leb_total; assumption).
      constructor; [constructor; assumption|].
      constructor; [assumption|].
      rewrite Forall_forall in Hall |- *. intros z Hz.
      unfold key_le in *. apply F64.leb_trans with (y := key y); auto.
Qed.

Lemma sort_by_sorted (l : list A) :
  Forall (key_ok key) l -> StronglySorted (key_le key) (sort_by key l).
Proof.
  induction l as [|x l IH]; intros Hl; simpl.
  - constructor.
  - inversion Hl; subst. apply insert_by_sorted; auto.
    apply (Permutation_Forall (sort_by_perm l)). assumption.
Qed.

(** Stability: sorting does not reorder the entries of one key. *)
Lemma insert_by_stable (k : float) (x : A) (l : list A) :
  filter (fun a => key a =? k)%float (insert_by key x l) =
  filter (fun a => key a =? k)%float (x :: l).
Proof.
  induction l as [|y l IH]; [reflexivity|].
  cbn [insert_by]. destruct (key y <? key x)%float eqn:Hlt; [|reflexivity].
  cbn [filter] in IH |- *. rewrite IH.
  destruct (key x =? k)%float eqn:Hx; [|reflexivity].
  rewrite (F64.ltb_eqb_class _ _ _ Hlt Hx). reflexivity.
Qed.

Lemma sort_by_stable (k : float) (l : list A) :
  filter (fun a => key a =? k)%float (sort_by key l) =
  filter (fun a => key a =? k)%float l.
Proof.
  induction l as [|x l IH]; [reflexivity|].
  cbn [sort_by]. rewrite insert_by_stable. cbn [filter]. rewrite IH. reflexivity.
Qed.

End SortFacts.

Section MatchFacts.

Lemma digit_inv (s : string) (c : ascii) (rest : string) :
  digit s = Some (c, rest) -> is_digit c = true /\ s = String c rest.
Proof.
  destruct s as [|x s]; simpl; [discriminate|].
  destruct (is_digit x) eqn:Hx; [|discriminate].
  intros [= <- <-]. split; [assumption | reflexivity].
Qed.

Lemma lit_inv (c : ascii) (s rest : string) :
  lit c s = Some rest -> s = String c rest.
Proof.
  destruct s as [|x s]; simpl; [discriminate|].
  destruct (Ascii.eqb x c) eqn:Hx; [|discriminate].
  apply Ascii.eqb_eq in Hx. intros [= <-]. subst. reflexivity.
Qed.

Ltac open_bind H :=
  match type of H with
  | bind ?o _ = Some _ =>
      let E := fresh "E" in
      destruct o as [?|] eqn:E; cbn [bind] in H; [|discriminate H]
  end.

Ltac open_alt H :=
  match type of H with
  | context [bind (lit ?c ?r) _] => destruct (lit c r)
  | context [bind (digit ?r) _] =>
      let F := fresh "F" in
      destruct (digit r) as [[? ?]|] eqn:F;
      [apply digit_inv in F; destruct F as [F _]|]
  end; cbn [bind orelse] in H.

Lemma match_stamp_valid (s : string) (m : Match) (rest : string) :
  match_stamp s = Some (m, rest) -> valid_match m.
Proof.
  unfold match_stamp. intros H. cbv zeta in H.
  open_bind H. open_bind H. destruct p as [d1 r1].
  open_bind H. destruct p as [d2 r2].
  open_bind H. open_bind H. destruct p as [d3 r4].
  open_bind H. destruct p as [d4 r5].
  apply digit_inv in E0, E1, E3, E4.
  destruct E0 as [D1 _], E1 as [D2 _], E3 as [D3 _], E4 as [D4 _].
  assert (Hfrac : valid_frac (group3 m) /\
                  group1 m = str2 d1 d2 /\ group2 m = str2 d3 d4).
  { cbv beta zeta in H.
    repeat open_alt H; try discriminate H;
      injection H as Hm Hr; subst m rest; cbn; repeat split;
      first [ left; reflexivity
            | right; left; eexists; split; [|reflexivity]; assumption
            | right; right; do 2 eexists; split; [|split; [|reflexivity]]; assumption ]. }
  destruct Hfrac as [Hf [Hg1 Hg2]].
  split; [exists d1, d2; auto|]. split; [exists d3, d4; auto | assumption].
Qed.

Lemma finditer_from_valid (s : string) :
  forall skip, Forall valid_match (finditer_from s skip).
Proof.
  induction s as [|c s IH]; intros skip; cbn [finditer_from].
  - constructor.
  - destruct skip as [|k]; [|apply IH].
    destruct (match_stamp (String c s)) as [[m rest]|] eqn:E; [|apply IH].
    constructor; [|apply IH]. eapply match_stamp_valid; eassumption.
Qed.

End MatchFacts.

Section StampFacts.

Lemma digit_value_range (c : ascii) : is_digit c = true -> 0 <= digit_value c <= 9.
Proof.
  unfold is_digit, digit_value. intros H.
  apply andb_true_iff in H. destruct H as [H1 H2].
  apply Z.leb_le in H1. apply Z.leb_le in H2. lia.
Qed.

Lemma int_str1 (a : ascii) : int (str1 a) = digit_value a.
Proof. unfold int. cbn. lia. Qed.

Lemma int_str2 (a b : ascii) : int (str2 a b) = digit_value a * 10 + digit_value b.
Proof. unfold int. cbn. lia. Qed.

Lemma line_of_match_stamp (text : string) (m : Match) :
  valid_match m ->
  exists (n f : Z) (tenths : bool),
    0 <= n < 6040 /\ 0 <= f < (if tenths then 10 else 100) /\
    t (line_of_match text m) = stamp_value n f tenths.
Proof.
  intros [[m1 [m2 [Hm1 [Hm2 G1]]]] [[s1 [s2 [Hs1 [Hs2 G2]]]] G3]].
  apply digit_value_range in Hm1, Hm2, Hs1, Hs2.
  unfold line_of_match. rewrite G1, G2, !int_str2.
  exists ((digit_value m1 * 10 + digit_value m2) * 60 + (digit_value s1 * 10 + digit_value s2)).
  destruct G3 as [G3 | [[f1 [Hf1 G3]] | [f1 [f2 [Hf1 [Hf2 G3]]]]]]; rewrite G3; cbn [t].
  - exists 0, true. split; [lia|]. split; [lia | reflexivity].
  - apply digit_value_range in Hf1.
    exists (digit_value f1), true. split; [lia|]. split; [lia|].
    cbn [String.length str1 Nat.eqb]. rewrite int_str1. reflexivity.
  - apply digit_value_range in Hf1, Hf2.
    exists (digit_value f1 * 10 + digit_value f2), false. split; [lia|]. split; [lia|].
    cbn [String.length str2 Nat.eqb substring]. fold (str2 f1 f2).
    rewrite int_str2. reflexivity.
Qed.

Lemma all_below_spec (n : nat) (p : Z -> bool) :
  all_below n p = true -> forall z, 0 <= z < Z.of_nat n -> p z = true.
Proof.
  induction n as [|k IH]; intros H z Hz.
  - simpl in Hz. lia.
  - simpl in H. apply andb_true_iff in H. destruct H as [H1 H2].
    destruct (Z.eq_dec z (Z.of_nat k)) as [->|Hne]; [assumption|].
    apply IH; [assumption | lia].
Qed.

Lemma all_upto_spec (bound : Z) (p : Z -> bool) :
  all_upto bound p = true -> forall z, 0 <= z < bound -> p z = true.
Proof.
  unfold all_upto. intros H z Hz. apply (all_below_spec _ _ H). lia.
Qed.

Lemma stamps_checked_true (tenths : bool) : stamps_checked tenths = true.
Proof. destruct tenths; vm_compute; reflexivity. Qed.

(** No tag has a NaN timestamp: minutes and seconds are below 100 and the
    fraction below 1, so the sum is an ordinary number. *)
Lemma stamp_value_not_nan (n f : Z) (tenths : bool) :
  0 <= n < 6040 -> 0 <= f < (if tenths then 10 else 100) ->
  is_nan (stamp_value n f tenths) = false.
Proof.
  intros Hn Hf.
  pose proof (all_upto_spec _ _ (stamps_checked_true tenths) n Hn) as H1.
  pose proof (all_upto_spec _ _ H1 f Hf) as H2.
  unfold stamp_ok in H2. apply negb_true_iff in H2. exact H2.
Qed.

Lemma lines_of_raw_not_nan (raw : string) :
  Forall (fun l => is_nan (t l) = false) (lines_of_raw raw).
Proof.
  unfold lines_of_raw.
  pose proof (finditer_from_valid (rstrip_newline raw) 0) as Hv.
  fold (finditer (rstrip_newline raw)) in Hv.
  destruct (finditer (rstrip_newline raw)) as [|m ms] eqn:E; [constructor|].
  apply Forall_map. revert Hv. apply Forall_impl. intros m' Hm'.
  destruct (line_of_match_stamp (strip (sub_stamps (rstrip_newline raw))) m' Hm')
    as [n [f [b [Hn [Hf ->]]]]].
  apply stamp_value_not_nan; assumption.
Qed.

Lemma collect_not_nan (data : string) :
  Forall (fun l => is_nan (t l) = false) (collect data).
Proof.
  unfold collect. apply Forall_flat_map.
  apply Forall_forall. intros raw _. apply lines_of_raw_not_nan.
Qed.

End StampFacts.

Section TagFacts.















End TagFacts.

(** ** Facts about the clock and the loop *)

Section SessionFacts.

Lemma handle_key_other (ch : Z) (c : Clock.State float) :
  ch <> ord_q -> ch <> ESC -> ch <> KEY_UP -> ch <> KEY_DOWN -> handle_key ch c = Some c.
Proof.
  intros Hq He Hu Hd. unfold handle_key.
  destruct (negb (ch =? -1)); [|reflexivity].
  apply Z.eqb_neq in Hq, He, Hu, Hd. rewrite Hq, He, Hu, Hd. reflexivity.
Qed.

Lemma tick_playback_ended (lyrics : list Line) (last_stamp : float) (s : Loop)
    (i : TickInput) (drawn : Z) :
  tick lyrics last_stamp s i = Break PlaybackEnded drawn ->
  playback_ended (poll i) (Clock.elapsed (clock s) (perf_counter i)) last_stamp = true.
Proof.
  unfold tick.
  destruct (find_current_index lyrics _) as [[idx reads]| |]; try discriminate.
  destruct (handle_key _ _); [|discriminate].
  destruct (playback_ended _ _ _); [reflexivity | discriminate].
Qed.

Lemma run_no_exit (lyrics : list Line) (last_stamp : float) (inputs : list TickInput) :
  forall (s : Loop) (message : string), snd (run lyrics last_stamp s inputs) <> SystemExit message.
Proof.
  induction inputs as [|i rest IH]; intros s message; cbn [run].
  - discriminate.
  - destruct (tick lyrics last_stamp s i) as [s'|why drawn|e|]; try discriminate.
    specialize (IH s' message).
    destruct (run lyrics last_stamp s' rest) as [events e]. exact IH.
Qed.

End SessionFacts.

(** * The specification's claims *)

Section Specification.

(** C1.  On a non-empty track sorted by timestamp, [find_current_index]
    returns the rightmost index whose timestamp is at or before the given
    time: every entry up to it is at or before that time and every later
    entry is after it.  It returns -1 when the time is before the first
    timestamp.  For the three-line scenario it returns 0 at 2.9, 2 at 3.0 and
    -1 at 0.0. *)
Theorem find_current_index_rightmost :
  (forall (lyrics : list Line) (now : float),
      lyrics <> [] -> sorted_track lyrics ->
      exists (r : Z) (reads : list Z),
        find_current_index lyrics now = Returned (r, reads) /\
        rightmost_le lyrics now r /\
        (forall first, stamp_at lyrics 0 = Some first -> (now <? first)%float = true -> r = -1)) /\
  parse_lrc scenario = scenario_track /\
  find_current_index (parse_lrc scenario) 2.9 = Returned (0, [1; 0]) /\
  find_current_index (parse_lrc scenario) 3 = Returned (2, [1; 2]) /\
  find_current_index (parse_lrc scenario) 0 = Returned (-1, [1; 0]).
Proof.
  split.
  - intros lyrics now _ Hs.
    destruct (find_current_index_returns lyrics now) as [r [reads [Hrun [Hr _]]]].
    exists r, reads. split; [exact Hrun|].
    pose proof (find_current_index_sorted lyrics now r reads Hs Hrun) as Hright.
    split; [exact Hright|].
    intros first Hfirst Hbefore.
    destruct Hright as [_ [Hleft _]].
    destruct (Z.eq_dec r (-1)) as [|Hne]; [assumption|].
    assert (Hle : (first <=? now)%float = true) by (apply (Hleft 0); [lia | exact Hfirst]).
    rewrite (F64.ltb_leb_false _ _ Hbefore) in Hle. discriminate Hle.
  - repeat split; vm_compute; reflexivity.
Qed.

Lemma find_current_index_rightmost_witness :
  exists (r : Z) (reads : list Z),
    find_current_index scenario_track 2.9 = Returned (r, reads) /\
    rightmost_le scenario_track 2.9 r /\
    (forall first, stamp_at scenario_track 0 = Some first -> (2.9 <? first)%float = true -> r = -1).
Proof.
  apply (proj1 find_current_index_rightmost).
  - discriminate.
  - unfold sorted_track, scenario_track, line_le.
    repeat constructor.
Defined.

(** C8.  For a fixed list of lines, [find_current_index] is monotone in the
    time: at [t1 <= t2] the index returned for [t1] is at most the one
    returned for [t2]. *)
Theorem find_current_index_monotone (lyrics : list Line) (t1 t2 : float) :
  (t1 <=? t2)%float = true ->
  exists (a1 a2 : Z) (r1 r2 : list Z),
    find_current_index lyrics t1 = Returned (a1, r1) /\
    find_current_index lyrics t2 = Returned (a2, r2) /\
    a1 <= a2.
Proof.
  intros Hle.
  destruct (find_current_index_returns lyrics t1) as [a1 [r1 [Hrun1 _]]].
  destruct (find_current_index_returns lyrics t2) as [a2 [r2 [Hrun2 _]]].
  exists a1, a2, r1, r2. split; [exact Hrun1|]. split; [exact Hrun2|].
  unfold find_current_index in Hrun1, Hrun2.
  apply (search_loop_monotone lyrics t1 t2 Hle _ _ _ _ _ _ _ _ _ _ _ Hrun1 Hrun2).
  - unfold len. lia.
  - reflexivity.
Qed.

Lemma find_current_index_monotone_witness :
  exists (a1 a2 : Z) (r1 r2 : list Z),
    find_current_index scenario_track 2.9 = Returned (a1, r1) /\
    find_current_index scenario_track 3 = Returned (a2, r2) /\
    a1 <= a2.
Proof.
  apply (find_current_index_monotone scenario_track 2.9 3). reflexivity.
Defined.

(** C10.  On every list of lines and at every time, [find_current_index]
    returns (it neither raises nor runs on), subscripts the list only at
    indices in [0, len), and returns an index between -1 and len - 1; on the
    empty list it returns -1 without reading the list. *)
Theorem find_current_index_safe :
  (forall (lyrics : list Line) (now : float),
      exists (ans : Z) (reads : list Z),
        find_current_index lyrics now = Returned (ans, reads) /\
        -1 <= ans <= len lyrics - 1 /\
        Forall (in_bounds lyrics) reads) /\
  (forall now : float, find_current_index [] now = Returned (-1, [])).
Proof.
  split.
  - intros lyrics now.
    destruct (find_current_index_returns lyrics now) as [a [r [Hrun [Ha Hr]]]].
    exists a, r. split; [exact Hrun|]. split; [lia | exact Hr].
  - intros now. reflexivity.
Qed.

(** C5.  For every content of the lyrics file, the list [parse_lrc] returns
    is sorted ascending by timestamp, holds the same lines as were collected
    while reading, and keeps the lines of one timestamp in the order in which
    they were read. *)
Theorem parse_lrc_sorted_stable (data : string) :
  sorted_track (parse_lrc data) /\
  Permutation (collect data) (parse_lrc data) /\
  (forall k : float,
      filter (fun l => t l =? k)%float (parse_lrc data) =
      filter (fun l => t l =? k)%float (collect data)).
Proof.
  unfold parse_lrc. split; [|split].
  - apply (sort_by_sorted t). apply collect_not_nan.
  - apply sort_by_perm.
  - intros k. apply sort_by_stable.
Qed.



(** C6.  The session ends in the error for an empty track exactly when the
    parsed track is empty, and it then ends before the player is launched
    and before any frame of the loop. *)
Theorem empty_track_fails_fast (data : string) (player_found : bool)
    (started offset : float) (inputs : list TickInput) :
  (snd (karaoke data player_found started offset inputs) = SystemExit no_lyrics
   <-> parse_lrc data = []) /\
  (parse_lrc data = [] ->
   karaoke data player_found started offset inputs = ([], SystemExit no_lyrics)).
Proof.
  unfold karaoke. destruct (parse_lrc data) as [|first rest] eqn:E.
  - split; [split|]; reflexivity.
  - split; [split|]; try discriminate.
    destruct player_found.
    + pose proof (run_no_exit (first :: rest) (t (last (first :: rest) first)) inputs
                    {| clock := Clock.new started offset; active_idx := -1 |} no_lyrics) as Hrun.
      destruct (run _ _ _ inputs) as [events e]. cbn [snd] in *.
      intros H. contradiction.
    + cbn [snd]. intros H. discriminate H.
Qed.

Lemma empty_track_fails_fast_witness :
  karaoke EmptyString true 100 0
    [ {| perf_counter := 100; getch := Key (-1); poll := None |} ] =
  ([], SystemExit no_lyrics).
Proof.
  apply (empty_track_fails_fast EmptyString true 100 0). reflexivity.
Defined.

(** C7.  A pass through the loop breaks because playback has ended only if
    the player has exited ([poll] is not [None]) and the elapsed time sampled
    in that pass is greater than the last timestamp plus one second; when the
    player is alive, or the elapsed time is not past that bound, no pass
    breaks for that reason. *)
Theorem playback_end_needs_both (lyrics : list Line) (last_stamp : float) (s : Loop)
    (i : TickInput) :
  let now := Clock.elapsed (clock s) (perf_counter i) in
  (forall drawn, tick lyrics last_stamp s i = Break PlaybackEnded drawn ->
                 poll i <> None /\ (last_stamp + 1 <? now)%float = true) /\
  (poll i = None \/ (last_stamp + 1 <? now)%float = false ->
   forall drawn, tick lyrics last_stamp s i <> Break PlaybackEnded drawn).
Proof.
  intros now.
  assert (Hboth : forall drawn, tick lyrics last_stamp s i = Break PlaybackEnded drawn ->
                                poll i <> None /\ (last_stamp + 1 <? now)%float = true).
  { intros drawn H. apply tick_playback_ended in H. fold now in H.
    unfold playback_ended, grace in H. destruct (poll i); [|discriminate H].
    split; [discriminate | exact H]. }
  split; [exact Hboth|].
  intros Hnot drawn H. destruct (Hboth drawn H) as [Hp Hn].
  destruct Hnot as [Hnone | Hearly]; [contradiction|].
  rewrite Hn in Hearly. discriminate Hearly.
Qed.

Lemma playback_end_needs_both_witness :
  (poll ended_input <> None /\
   (3 + 1 <? Clock.elapsed (clock fresh_loop) (perf_counter ended_input))%float = true) /\
  (forall drawn,
      tick scenario_track 3 fresh_loop
        {| perf_counter := 5; getch := Key (-1); poll := None |} <> Break PlaybackEnded drawn).
Proof.
  split.
  - apply (proj1 (playback_end_needs_both scenario_track 3 fresh_loop ended_input) 2).
    reflexivity.
  - apply (proj2 (playback_end_needs_both scenario_track 3 fresh_loop
                    {| perf_counter := 5; getch := Key (-1); poll := None |})).
    left. reflexivity.
Defined.

(** C9.  A key other than q, ESC, KEY_UP and KEY_DOWN leaves the clock as it
    is, both the anchor and the displayed offset, and the pass in which it is
    read ends as the same pass would with no key pressed: the key does not
    stop the loop. *)
Theorem other_keys_ignored (ch : Z) :
  ch <> ord_q -> ch <> ESC -> ch <> KEY_UP -> ch <> KEY_DOWN ->
  (forall c : Clock.State float, handle_key ch c = Some c) /\
  (forall (lyrics : list Line) (last_stamp : float) (s : Loop) (pc : float) (p : option Z),
      tick lyrics last_stamp s {| perf_counter := pc; getch := Key ch; poll := p |} =
      tick lyrics last_stamp s {| perf_counter := pc; getch := Key (-1); poll := p |}).
Proof.
  intros Hq He Hu Hd.
  assert (Hkey : forall c : Clock.State float, handle_key ch c = Some c)
    by (intros c; apply handle_key_other; assumption).
  split; [exact Hkey|].
  intros lyrics last_stamp s pc p. unfold tick. cbn [perf_counter getch poll].
  rewrite Hkey. reflexivity.
Qed.

Lemma other_keys_ignored_witness :
  (forall c : Clock.State float, handle_key 97 c = Some c) /\
  (forall (lyrics : list Line) (last_stamp : float) (s : Loop) (pc : float) (p : option Z),
      tick lyrics last_stamp s {| perf_counter := pc; getch := Key 97; poll := p |} =
      tick lyrics last_stamp s {| perf_counter := pc; getch := Key (-1); poll := p |}).
Proof.
  apply (other_keys_ignored 97); discriminate.
Defined.

(** C2 as the code has it.  The clock is created with its anchor at the
    reading of the performance counter plus the initial offset, so the
    elapsed time sampled at that same reading is the reading minus (reading
    plus offset): minus the offset when no operation rounds, whatever the
    reading.  In the program, a session started with offset 0.5 draws its
    first frame at elapsed time -0.5. *)
Theorem clock_new_anchor :
  (forall pc i : float,
      Clock.start (Clock.new pc i) = (pc + i)%float /\
      Clock.offset (Clock.new pc i) = i /\
      Clock.elapsed (Clock.new pc i) pc = (pc - (pc + i))%float) /\
  (forall pc i : Q, Clock.elapsed (Clock.new pc i) pc == - i) /\
  fst (karaoke scenario true 100 0.5
         [ {| perf_counter := 100; getch := Key (-1); poll := None |} ]) =
  [Launch; Frame (-0.5) (-1)].
Proof.
  split; [|split].
  - intros pc i. repeat split.
  - intros pc i. unfold Clock.elapsed, Clock.new. cbn. ring.
  - vm_compute. reflexivity.
Qed.

(** C2 as the specification states it fails: with the counter at 100 and an
    initial offset of 0.5 the anchor is 100.5, not 99.5, and the elapsed time
    at creation is -0.5, not 0.5. *)
Lemma clock_new_not_minus :
  Clock.start (Clock.new 100 0.5)%float <> (100 - 0.5)%float /\
  Clock.elapsed (Clock.new 100 0.5)%float 100%float <> 0.5%float.
Proof.
  split; intros H.
  - apply (f_equal (fun x => x =? 99.5)%float) in H. vm_compute in H. discriminate H.
  - apply (f_equal (fun x => x =? 0.5)%float) in H. vm_compute in H. discriminate H.
Qed.



End Specification.

(** * Further properties of the code *)

(** ** [find_current_index] *)

Section IndexMore.

Lemma midpoint_double (lo hi : Z) : 2 * ((lo + hi) / 2) <= lo + hi <= 2 * ((lo + hi) / 2) + 1.
Proof.
  pose proof (Z.div_mod (lo + hi) 2 ltac:(lia)) as Hdm.
  pose proof (Z.mod_pos_bound (lo + hi) 2 ltac:(lia)) as Hmod.
  lia.
Qed.

(** Each pass of the loop at least halves the interval [lo..hi]: from an
    interval of [m >= 1] indices the loop makes [k] more reads with
    [2^k <= 2m], and none from an empty interval. *)
Lemma search_loop_halves (lyrics : list Line) (now : float) :
  forall (fuel : nat) (lo hi ans : Z) (reads : list Z) (a : Z) (r : list Z),
    search_loop fuel lyrics now lo hi ans reads = Returned (a, r) ->
    exists k : nat,
      List.length r = (List.length reads + k)%nat /\
      (hi - lo + 1 <= 0 -> k = O) /\
      (1 <= hi - lo + 1 -> 2 ^ Z.of_nat k <= 2 * (hi - lo + 1)).
Proof.
  induction fuel as [|fuel IH]; intros lo hi ans reads a r Hrun.
  - discriminate.
  - simpl in Hrun. destruct (lo <=? hi) eqn:Hcmp.
    + apply Z.leb_le in Hcmp.
      pose proof (midpoint_double lo hi) as Hmid.
      set (mid := (lo + hi) / 2) in *.
      destruct (getitem lyrics mid) as [line|]; [|discriminate].
      assert (Hstep : forall lo' hi' ans',
                 search_loop fuel lyrics now lo' hi' ans' (reads ++ [mid]) = Returned (a, r) ->
                 2 * (hi' - lo' + 1) <= hi - lo + 1 ->
                 exists k : nat,
                   List.length r = (List.length reads + k)%nat /\
                   (hi - lo + 1 <= 0 -> k = O) /\
                   (1 <= hi - lo + 1 -> 2 ^ Z.of_nat k <= 2 * (hi - lo + 1))).
      { intros lo' hi' ans' Hrun' Hhalf.
        destruct (IH _ _ _ _ _ _ Hrun') as [k [Hlen [Hzero Hpow]]].
        exists (S k). rewrite Hlen, length_app. cbn [List.length].
        split; [lia|]. split; [lia|]. intros _.
        rewrite Nat2Z.inj_succ, Z.pow_succ_r by lia.
        destruct (Z_le_gt_dec (hi' - lo' + 1) 0) as [Hempty|Hsome].
        - rewrite (Hzero Hempty). change (2 ^ Z.of_nat 0) with 1. lia.
        - specialize (Hpow ltac:(lia)). lia. }
      destruct (LyricIndex.t line <=? now)%float.
      * apply (Hstep _ _ _ Hrun). lia.
      * apply (Hstep _ _ _ Hrun). lia.
    + apply Z.leb_gt in Hcmp. injection Hrun as <- <-.
      exists O. split; [lia|]. split; [reflexivity | lia].
Qed.

(** While [ans] is not -1 it is an index whose timestamp is at or before
    [now], on any list. *)
Lemma search_loop_not_future (lyrics : list Line) (now : float) :
  forall (fuel : nat) (lo hi ans : Z) (reads : list Z) (a : Z) (r : list Z),
    search_loop fuel lyrics now lo hi ans reads = Returned (a, r) ->
    0 <= lo -> hi < len lyrics ->
    (ans = -1 \/ exists x, stamp_at lyrics ans = Some x /\ (x <=? now)%float = true) ->
    a = -1 \/ exists x, stamp_at lyrics a = Some x /\ (x <=? now)%float = true.
Proof.
  induction fuel as [|fuel IH]; intros lo hi ans reads a r Hrun Hlo Hhi Hans.
  - discriminate.
  - simpl in Hrun. destruct (lo <=? hi) eqn:Hcmp.
    + apply Z.leb_le in Hcmp.
      pose proof (midpoint_between lo hi Hcmp) as Hmid.
      set (mid := (lo + hi) / 2) in *.
      destruct (getitem_in_bounds lyrics mid) as [line [Hget Hnth]]; [lia|].
      rewrite Hget in Hrun.
      destruct (LyricIndex.t line <=? now)%float eqn:Hle.
      * apply (IH _ _ _ _ _ _ Hrun); try lia.
        right. exists (LyricIndex.t line). split; [|exact Hle].
        apply stamp_at_nth; [lia | exact Hnth].
      * apply (IH _ _ _ _ _ _ Hrun); try lia. exact Hans.
    + injection Hrun as <- <-. exact Hans.
Qed.

Lemma filter_prefix_count {A : Type} (p : A -> bool) (l : list A) :
  forall k : nat,
    (k <= List.length l)%nat ->
    (forall i x, (i < k)%nat -> nth_error l i = Some x -> p x = true) ->
    (forall j x, (k <= j)%nat -> nth_error l j = Some x -> p x = false) ->
    List.length (filter p l) = k.
Proof.
  induction l as [|y l IH]; intros k Hk Hpre Hpost.
  - cbn in Hk. cbn. lia.
  - cbn [filter]. destruct k as [|k].
    + rewrite (Hpost O y ltac:(lia) eq_refl).
      apply (IH O); [lia | intros; lia |].
      intros j x _ Hx. apply (Hpost (S j) x); [lia | exact Hx].
    + rewrite (Hpre O y ltac:(lia) eq_refl). cbn [List.length]. f_equal.
      apply IH.
      * cbn in Hk. lia.
      * intros i x Hi Hx. apply (Hpre (S i) x); [lia | exact Hx].
      * intros j x Hj Hx. apply (Hpost (S j) x); [lia | exact Hx].
Qed.

End IndexMore.

Section IndexProperties.

(** X1.  [find_current_index] is logarithmic: on a list of [n >= 1] lines it
    subscripts the list [k] times with [2^k <= 2n], that is at most
    [log2 n + 1] times, and not at all on the empty list. *)
Theorem find_current_index_logarithmic (lyrics : list Line) (now : float) :
  exists (a : Z) (reads : list Z),
    find_current_index lyrics now = Returned (a, reads) /\
    2 ^ len reads <= Z.max 1 (2 * len lyrics).
Proof.
  destruct (find_current_index_returns lyrics now) as [a [reads [Hrun _]]].
  exists a, reads. split; [exact Hrun|].
  unfold find_current_index in Hrun.
  destruct (search_loop_halves lyrics now _ _ _ _ _ _ _ Hrun) as [k [Hlen [Hzero Hpow]]].
  cbn [List.length Nat.add] in Hlen. unfold len at 1. rewrite Hlen.
  destruct (Z_le_gt_dec (len lyrics) 0) as [Hempty|Hsome].
  - rewrite (Hzero ltac:(lia)). change (2 ^ Z.of_nat 0) with 1. lia.
  - specialize (Hpow ltac:(lia)). lia.
Qed.

(** X2.  On any list of lines, sorted or not, the index [find_current_index]
    returns is -1 or the index of a line whose timestamp is at or before the
    given time: it never selects a line that lies in the future. *)
Theorem find_current_index_not_future (lyrics : list Line) (now : float) :
  exists (a : Z) (reads : list Z),
    find_current_index lyrics now = Returned (a, reads) /\
    (a = -1 \/ exists x, stamp_at lyrics a = Some x /\ (x <=? now)%float = true).
Proof.
  destruct (find_current_index_returns lyrics now) as [a [reads [Hrun _]]].
  exists a, reads. split; [exact Hrun|].
  unfold find_current_index in Hrun.
  apply (search_loop_not_future lyrics now _ _ _ _ _ _ _ Hrun); [lia | lia |].
  left. reflexivity.
Qed.

(** X3.  On a sorted track the index returned is the number of lines whose
    timestamp is at or before the given time, minus one. *)
Theorem find_current_index_counts (lyrics : list Line) (now : float) :
  sorted_track lyrics ->
  exists (a : Z) (reads : list Z),
    find_current_index lyrics now = Returned (a, reads) /\
    a + 1 = len (filter (fun l => LyricIndex.t l <=? now)%float lyrics).
Proof.
  intros Hs.
  destruct (find_current_index_returns lyrics now) as [a [reads [Hrun _]]].
  exists a, reads. split; [exact Hrun|].
  destruct (find_current_index_sorted lyrics now a reads Hs Hrun) as [Ha [Hleft Hright]].
  unfold len. unfold len in Ha.
  rewrite (filter_prefix_count _ lyrics (Z.to_nat (a + 1))).
  - lia.
  - lia.
  - intros i x Hi Hx.
    apply (Hleft (Z.of_nat i)); [lia|].
    apply stamp_at_nth; [unfold len; lia|]. rewrite Nat2Z.id. exact Hx.
  - intros j x Hj Hx.
    assert (Hlt : (j < List.length lyrics)%nat) by (apply nth_error_Some; congruence).
    apply (Hright (Z.of_nat j)); [lia|].
    apply stamp_at_nth; [unfold len; lia|]. rewrite Nat2Z.id. exact Hx.
Qed.

Lemma find_current_index_counts_witness :
  exists (a : Z) (reads : list Z),
    find_current_index scenario_track 2.9 = Returned (a, reads) /\
    a + 1 = len (filter (fun l => LyricIndex.t l <=? 2.9)%float scenario_track).
Proof.
  apply (find_current_index_counts scenario_track 2.9).
  unfold sorted_track, scenario_track, line_le. repeat constructor.
Defined.

End IndexProperties.

(** ** The render loop and the session *)

Section LoopFacts.





End LoopFacts.

Section LoopProperties.








End LoopProperties.

(** ** The lyric block of a frame *)

Section ScreenFacts.

Import Screen.

Lemma shown_at_spec (lyrics : list Line) (idx rel : Z) :
  (0 <= idx + rel < len lyrics /\
   exists l, nth_error lyrics (Z.to_nat (idx + rel)) = Some l /\
             shown_at lyrics idx rel = [(prefix_of rel ++ text l)%string]) \/
  (~ 0 <= idx + rel < len lyrics /\ shown_at lyrics idx rel = []).
Proof.
  unfold shown_at.
  destruct ((0 <=? idx + rel) && (idx + rel <? len lyrics)) eqn:B.
  - apply andb_true_iff in B. destruct B as [B1 B2].
    apply Z.leb_le in B1. apply Z.ltb_lt in B2.
    left. split; [lia|].
    destruct (getitem_in_bounds lyrics (idx + rel)) as [l [Hget Hnth]]; [lia|].
    exists l. rewrite Hget. split; [exact Hnth | reflexivity].
  - right. split; [|reflexivity].
    apply andb_false_iff in B. destruct B as [B|B].
    + apply Z.leb_gt in B. lia.
    + apply Z.ltb_ge in B. lia.
Qed.

Ltac window_line lyrics idx :=
  match goal with
  | H : nth_error lyrics (Z.to_nat (idx + ?r)) = Some ?l |- exists _, _ =>
      exists l; split;
      [ match goal with
        | |- nth_error lyrics (Z.to_nat ?i) = _ => replace i with (idx + r) by lia; exact H
        end
      | match goal with
        | |- _ = (prefix_of ?i ++ _)%string => replace i with r by lia; reflexivity
        end ]
  end.

Lemma lines_to_show_window_aux (lyrics : list Line) (idx : Z) :
  -1 <= idx < len lyrics ->
  len (lines_to_show lyrics idx) = Z.min (len lyrics) (idx + 3) - Z.max 0 (idx - 2) /\
  forall (k : nat) (line : string),
    nth_error (lines_to_show lyrics idx) k = Some line ->
    exists l,
      nth_error lyrics (Z.to_nat (Z.max 0 (idx - 2) + Z.of_nat k)) = Some l /\
      line = (prefix_of (Z.max 0 (idx - 2) + Z.of_nat k - idx) ++ text l)%string.
Proof.
  intros Hidx. unfold lines_to_show. cbn [flat_map].
  destruct (shown_at_spec lyrics idx (-2)) as [[R1 [l1 [N1 ->]]] | [R1 ->]];
  destruct (shown_at_spec lyrics idx (-1)) as [[R2 [l2 [N2 ->]]] | [R2 ->]];
  destruct (shown_at_spec lyrics idx 0) as [[R3 [l3 [N3 ->]]] | [R3 ->]];
  destruct (shown_at_spec lyrics idx 1) as [[R4 [l4 [N4 ->]]] | [R4 ->]];
  destruct (shown_at_spec lyrics idx 2) as [[R5 [l5 [N5 ->]]] | [R5 ->]];
  try (exfalso; lia);
  (split;
   [ unfold len at 1; cbn [app List.length]; lia
   | intros k line Hk; cbn [app] in Hk;
     repeat (destruct k as [|k]; [cbn [nth_error] in Hk; injection Hk as <-;
                                  window_line lyrics idx | cbn [nth_error] in Hk]);
     destruct k; discriminate Hk ]).
Qed.

End ScreenFacts.

Section ScreenLemmas.

Import Screen.

Lemma marked_prefix (rel : Z) (x : string) :
  String.prefix "> " (prefix_of rel ++ x) = (rel =? 0).
Proof.
  unfold prefix_of.
  destruct (rel =? 0); [|destruct (rel =? -1); [|destruct (rel =? 1)]];
    cbn; try reflexivity.
  destruct x; reflexivity.
Qed.

Lemma first_chars_length (n : nat) (s : string) :
  String.length (first_chars n s) = Nat.min n (String.length s).
Proof.
  revert s. induction n as [|n IH]; intros s; [reflexivity|].
  destruct s as [|c s]; cbn; [reflexivity|]. rewrite IH. reflexivity.
Qed.

Lemma skip_chars_length (n : nat) (s : string) :
  String.length (skip_chars n s) = (String.length s - n)%nat.
Proof.
  revert s. induction n as [|n IH]; intros s; [cbn; lia|].
  destruct s as [|c s]; cbn; [reflexivity|]. apply IH.
Qed.

Lemma place_nth (h w : Z) (lines : list string) :
  forall (y : Z) (k : nat) (cell : Cell),
    nth_error (place h w y lines) k = Some cell ->
    exists line,
      nth_error lines k = Some line /\
      row cell = y + Z.of_nat k /\ row cell <= h - 2 /\
      shown cell = take (Z.max 0 (w - 1)) line /\
      bold cell = String.prefix "> " line.
Proof.
  induction lines as [|line lines IH]; intros y k cell Hk.
  - destruct k; discriminate Hk.
  - cbn [place] in Hk. destruct (y >=? h - 1) eqn:Hy.
    + destruct k; discriminate Hk.
    + assert (Hrow : y < h - 1) by (destruct (Z.geb_spec y (h - 1)); [discriminate | lia]).
      destruct k as [|k].
      * cbn in Hk. injection Hk as <-. exists line. cbn. repeat split; lia.
      * cbn [nth_error] in Hk. destruct (IH _ _ _ Hk) as [l [Hl [Hr [Hb [Hs Hbold]]]]].
        exists l. cbn [nth_error]. repeat split; try assumption. lia.
Qed.

Lemma place_all (h w : Z) (lines : list string) :
  forall y : Z, y + len lines <= h - 1 -> List.length (place h w y lines) = List.length lines.
Proof.
  induction lines as [|line lines IH]; intros y Hy; [reflexivity|].
  unfold len in Hy. cbn [List.length] in Hy. cbn [place].
  destruct (Z.geb_spec y (h - 1)); [lia|].
  cbn [List.length]. f_equal. apply IH. unfold len. lia.
Qed.

Lemma place_none (h w y : Z) (lines : list string) : h - 1 <= y -> place h w y lines = [].
Proof.
  intros Hy. destruct lines as [|line lines]; [reflexivity|]. cbn [place].
  destruct (Z.geb_spec y (h - 1)); [reflexivity | lia].
Qed.

End ScreenLemmas.

Section ScreenProperties.

Import Screen.

(** X8.  With the active index between -1 and [len(lyrics) - 1], the lines
    shown are the lines of the track from index [max(0, idx - 2)] up to, not
    including, [min(len, idx + 3)], in track order, each with the prefix of
    its distance to the active line: at most two before, the active line and
    at most two after, with nothing in place of lines that do not exist. *)
Theorem lines_to_show_window (lyrics : list Line) (idx : Z) :
  -1 <= idx < len lyrics ->
  len (lines_to_show lyrics idx) = Z.min (len lyrics) (idx + 3) - Z.max 0 (idx - 2) /\
  len (lines_to_show lyrics idx) <= 5 /\
  (2 <= idx <= len lyrics - 3 -> len (lines_to_show lyrics idx) = 5) /\
  forall (k : nat) (line : string),
    nth_error (lines_to_show lyrics idx) k = Some line ->
    exists l,
      nth_error lyrics (Z.to_nat (Z.max 0 (idx - 2) + Z.of_nat k)) = Some l /\
      line = (prefix_of (Z.max 0 (idx - 2) + Z.of_nat k - idx) ++ text l)%string.
Proof.
  intros Hidx. destruct (lines_to_show_window_aux lyrics idx Hidx) as [Hlen Hnth].
  split; [exact Hlen|]. split; [lia|]. split; [lia | exact Hnth].
Qed.

Lemma lines_to_show_window_witness :
  len (lines_to_show scenario_track 1) = Z.min (len scenario_track) (1 + 3) - Z.max 0 (1 - 2) /\
  len (lines_to_show scenario_track 1) <= 5 /\
  (2 <= 1 <= len scenario_track - 3 -> len (lines_to_show scenario_track 1) = 5) /\
  forall (k : nat) (line : string),
    nth_error (lines_to_show scenario_track 1) k = Some line ->
    exists l,
      nth_error scenario_track (Z.to_nat (Z.max 0 (1 - 2) + Z.of_nat k)) = Some l /\
      line = (prefix_of (Z.max 0 (1 - 2) + Z.of_nat k - 1) ++ text l)%string.
Proof.
  apply (lines_to_show_window scenario_track 1). unfold len. cbn. lia.
Defined.

(** X9.  Among the lines shown, the one written with the "> " prefix (and
    drawn bold) is the active line and no other: a shown line starts with
    "> " exactly when it is the line at the active index, and when the active
    index is not -1 that line is among those shown. *)
Theorem marker_on_active_line (lyrics : list Line) (idx : Z) :
  -1 <= idx < len lyrics ->
  (forall (k : nat) (line : string),
      nth_error (lines_to_show lyrics idx) k = Some line ->
      (String.prefix "> " line = true <-> Z.max 0 (idx - 2) + Z.of_nat k = idx)) /\
  (0 <= idx ->
   exists line, nth_error (lines_to_show lyrics idx) (Z.to_nat (idx - Z.max 0 (idx - 2))) = Some line).
Proof.
  intros Hidx. destruct (lines_to_show_window_aux lyrics idx Hidx) as [Hlen Hnth]. split.
  - intros k line Hk. destruct (Hnth k line Hk) as [l [_ ->]].
    rewrite marked_prefix. rewrite Z.eqb_eq. lia.
  - intros Hpos.
    destruct (nth_error (lines_to_show lyrics idx) (Z.to_nat (idx - Z.max 0 (idx - 2)))) as [line|] eqn:E.
    + exists line. reflexivity.
    + apply nth_error_None in E. unfold len in *. lia.
Qed.

Lemma marker_on_active_line_witness :
  (forall (k : nat) (line : string),
      nth_error (lines_to_show scenario_track 2) k = Some line ->
      (String.prefix "> " line = true <-> Z.max 0 (2 - 2) + Z.of_nat k = 2)) /\
  (0 <= 2 ->
   exists line, nth_error (lines_to_show scenario_track 2) (Z.to_nat (2 - Z.max 0 (2 - 2))) = Some line).
Proof.
  apply (marker_on_active_line scenario_track 2). unfold len. cbn. lia.
Defined.

(** X10.  Every line of the block is written inside the window: the k-th
    cell is the k-th line, on row [y_start + k] with [y_start >= 3], never
    below row [h - 2], cut to at most [max(0, w - 1)] characters, and bold
    exactly when the line starts with "> ". *)
Theorem lyric_block_in_window (h w : Z) (lines : list string) (k : nat) (cell : Cell) :
  nth_error (lyric_block h w lines) k = Some cell ->
  exists line,
    nth_error lines k = Some line /\
    row cell = Z.max 3 (h / 2 - len lines / 2) + Z.of_nat k /\
    3 <= row cell <= h - 2 /\
    shown cell = take (Z.max 0 (w - 1)) line /\
    slen (shown cell) <= Z.max 0 (w - 1) /\
    bold cell = String.prefix "> " line.
Proof.
  intros Hk. unfold lyric_block in Hk.
  destruct (place_nth h w lines _ k cell Hk) as [line [Hl [Hr [Hb [Hs Hbold]]]]].
  exists line. repeat split; try assumption; try lia.
  rewrite Hs. unfold slen, take.
  rewrite first_chars_length. lia.
Qed.

Lemma lyric_block_in_window_witness :
  exists line,
    nth_error (lines_to_show scenario_track 1) 1 = Some line /\
    row {| row := 12; bold := true; shown := "> World" |} =
      Z.max 3 (24 / 2 - len (lines_to_show scenario_track 1) / 2) + Z.of_nat 1 /\
    3 <= row {| row := 12; bold := true; shown := "> World" |} <= 24 - 2 /\
    shown {| row := 12; bold := true; shown := "> World" |} = take (Z.max 0 (80 - 1)) line /\
    slen (shown {| row := 12; bold := true; shown := "> World" |}) <= Z.max 0 (80 - 1) /\
    bold {| row := 12; bold := true; shown := "> World" |} = String.prefix "> " line.
Proof.
  apply (lyric_block_in_window 24 80 (lines_to_show scenario_track 1) 1). vm_compute. reflexivity.
Defined.

(** X11.  In a window of at least 9 rows every line of the block is drawn,
    and in a window of at most 4 rows none is. *)
Theorem lyric_block_complete (lyrics : list Line) (idx h w : Z) :
  -1 <= idx < len lyrics ->
  (9 <= h ->
   List.length (lyric_block h w (lines_to_show lyrics idx)) =
   List.length (lines_to_show lyrics idx)) /\
  (h <= 4 -> lyric_block h w (lines_to_show lyrics idx) = []).
Proof.
  intros Hidx. destruct (lines_to_show_window_aux lyrics idx Hidx) as [Hlen _].
  set (lines := lines_to_show lyrics idx) in *.
  assert (Hfive : 0 <= len lines <= 5) by (split; [unfold len; lia | lia]).
  split; intros Hh; unfold lyric_block.
  - apply place_all.
    pose proof (Z.div_mod h 2 ltac:(lia)). pose proof (Z.mod_pos_bound h 2 ltac:(lia)).
    pose proof (Z.div_mod (len lines) 2 ltac:(lia)).
    pose proof (Z.mod_pos_bound (len lines) 2 ltac:(lia)).
    lia.
  - apply place_none. lia.
Qed.

Lemma lyric_block_complete_witness :
  (9 <= 24 ->
   List.length (lyric_block 24 80 (lines_to_show scenario_track 1)) =
   List.length (lines_to_show scenario_track 1)) /\
  (24 <= 4 -> lyric_block 24 80 (lines_to_show scenario_track 1) = []).
Proof.
  apply (lyric_block_complete scenario_track 1 24 80). unfold len. cbn. lia.
Defined.

End ScreenProperties.

(** ** The progress bar *)

Section ProgressFacts.

Import Screen.

Lemma slen_append (a b : string) : slen (a ++ b) = slen a + slen b.
Proof.
  unfold slen. induction a as [|c a IH]; cbn [append String.length]; lia.
Qed.

Lemma append_assoc (a b c : string) : ((a ++ b) ++ c = a ++ (b ++ c))%string.
Proof. induction a as [|x a IH]; cbn; [reflexivity|]. rewrite IH. reflexivity. Qed.

Lemma slen_times (c : ascii) (n : Z) : slen (times c n) = Z.max 0 n.
Proof.
  unfold slen, times.
  assert (H : forall k, String.length (string_of_list_ascii (repeat c k)) = k)
    by (induction k as [|k IH]; cbn; [reflexivity | rewrite IH; reflexivity]).
  rewrite H. lia.
Qed.

Lemma slen_plain_bar (width filled : Z) :
  slen (plain_bar width filled) = 2 + Z.max 0 filled + Z.max 0 (width - 2 - filled).
Proof.
  unfold plain_bar. rewrite !slen_append, !slen_times.
  change (slen "[") with 1. change (slen "]") with 1. lia.
Qed.

Lemma string_of_uint_nonempty (d : Decimal.uint) :
  (1 <= String.length (DecimalString.NilZero.string_of_uint d))%nat.
Proof. destruct d; cbn; lia. Qed.

Lemma slen_fmt02 (n : Z) : 2 <= slen (fmt02 n).
Proof.
  unfold slen, fmt02. destruct n as [|p|p].
  - cbn. lia.
  - pose proof (string_of_uint_nonempty (Pos.to_uint p)) as Hd.
    destruct (Nat.ltb_spec (String.length (DecimalString.NilZero.string_of_uint (Pos.to_uint p))) 2).
    + cbn [append String.length]. lia.
    + lia.
  - pose proof (string_of_uint_nonempty (Pos.to_uint p)) as Hd.
    cbn [append String.length]. lia.
Qed.

Lemma slen_time_label (mins secs tmins tsecs : Z) : 15 <= slen (time_label mins secs tmins tsecs).
Proof.
  unfold time_label. rewrite !slen_append.
  pose proof (slen_fmt02 mins). pose proof (slen_fmt02 secs).
  pose proof (slen_fmt02 tmins). pose proof (slen_fmt02 tsecs).
  unfold slen in *. cbn [String.length]. lia.
Qed.

Lemma skip_chars_append (k : nat) (x y : string) :
  (k <= String.length x)%nat -> skip_chars k (x ++ y) = (skip_chars k x ++ y)%string.
Proof.
  revert x. induction k as [|k IH]; intros x Hk; [destruct x; reflexivity|].
  destruct x as [|c x]; cbn in Hk; [lia|]. cbn. apply IH. lia.
Qed.

Lemma slen_cons (c : ascii) (s : string) : slen (String c s) = 1 + slen s.
Proof. unfold slen. cbn [String.length]. lia. Qed.

(** Laying a label over a bracketed bar that is longer than the label by
    more than two keeps the length and both brackets. *)
Lemma fit_label_bracketed (body label : string) :
  let bar := String "[" (body ++ "]") in
  slen (fit_label bar label) = slen bar /\
  exists inner, fit_label bar label = String "[" (inner ++ "]").
Proof.
  intros bar. unfold fit_label.
  assert (Hbar : slen bar = slen body + 2).
  { unfold bar. rewrite slen_cons, slen_append. change (slen "]") with 1. lia. }
  assert (Hbody : 0 <= slen body) by (unfold slen; lia).
  assert (Hll : 0 <= slen label) by (unfold slen; lia).
  destruct (Z.ltb_spec (slen label) (slen bar - 2)) as [Hfit|Hno].
  - set (start := (slen bar - slen label) / 2).
    pose proof (Z.div_mod (slen bar - slen label) 2 ltac:(lia)) as Hdm.
    pose proof (Z.mod_pos_bound (slen bar - slen label) 2 ltac:(lia)) as Hmod.
    fold start in Hdm.
    assert (Hstart : 1 <= start /\ start + slen label <= slen bar - 1) by lia.
    unfold take, drop.
    destruct (Z.to_nat start) as [|k] eqn:Ek; [lia|].
    destruct (Z.to_nat (start + slen label)) as [|n] eqn:En; [lia|].
    subst bar. cbn [first_chars skip_chars].
    rewrite skip_chars_append by (unfold slen in *; lia).
    split.
    + cbn [append]. rewrite slen_cons, !slen_append.
      change (slen "]") with 1.
      assert (H1 : slen (first_chars k (body ++ "]")) = Z.of_nat k).
      { unfold slen at 1. rewrite first_chars_length.
        fold (slen (body ++ "]")).
        assert (slen (body ++ "]") = slen body + 1)
          by (rewrite slen_append; reflexivity).
        unfold slen in *. lia. }
      assert (H2 : slen (skip_chars n body) = slen body - Z.of_nat n).
      { unfold slen at 1. rewrite skip_chars_length. unfold slen in *. lia. }
      rewrite H1, H2. lia.
    + exists (first_chars k (body ++ "]") ++ label ++ skip_chars n body)%string.
      cbn [append]. rewrite !append_assoc. reflexivity.
  - split; [reflexivity|]. exists body. reflexivity.
Qed.

End ProgressFacts.

Section ProgressProperties.

Import Screen.

(** X12.  The progress fraction is always a number between 0 and 1, never
    NaN, whatever the two times are: negative, zero, infinite or NaN. *)
Theorem progress_fraction_in_unit (now_s total_s : float) :
  (0 <=? progress_fraction now_s total_s)%float = true /\
  (progress_fraction now_s total_s <=? 1)%float = true.
Proof.
  unfold progress_fraction. destruct (total_s <=? 0)%float.
  - split; reflexivity.
  - unfold py_max. destruct (0 <? now_s / total_s)%float eqn:Hpos.
    + unfold py_min. destruct (now_s / total_s <? 1)%float eqn:Hlow.
      * split; apply F64.ltb_leb; assumption.
      * split; reflexivity.
    + split; reflexivity.
Qed.

(** X13.  When the filled count lies between 0 and the bar's inner width,
    the text of the progress bar has exactly [max(10, width)] characters and
    keeps "[" as its first and "]" as its last character, with or without
    the time label laid over its middle. *)
Theorem progress_text_fills_width (width filled mins secs tmins tsecs : Z) :
  0 <= filled <= Z.max 10 width - 2 ->
  slen (progress_text width filled mins secs tmins tsecs) = Z.max 10 width /\
  exists inner,
    progress_text width filled mins secs tmins tsecs = String "[" (inner ++ "]").
Proof.
  intros Hf. unfold progress_text.
  pose proof (slen_plain_bar (Z.max 10 width) filled) as Hlen.
  set (body := (times "#" filled ++ times "-" (Z.max 10 width - 2 - filled))%string).
  assert (Hbar : plain_bar (Z.max 10 width) filled = String "[" (body ++ "]")).
  { unfold plain_bar, body. cbn [append]. rewrite append_assoc. reflexivity. }
  rewrite Hbar in *.
  destruct (fit_label_bracketed body (time_label mins secs tmins tsecs)) as [Hsame Hinner].
  split; [rewrite Hsame, Hlen; lia | exact Hinner].
Qed.

Lemma progress_text_fills_width_witness :
  slen (progress_text 40 10 1 5 3 20) = Z.max 10 40 /\
  exists inner, progress_text 40 10 1 5 3 20 = String "[" (inner ++ "]").
Proof.
  apply (progress_text_fills_width 40 10 1 5 3 20). lia.
Defined.

(** X14.  The time label takes at least 15 characters, so a bar of fewer
    than 18 characters carries none: with the filled count in range its text
    is "[", the filled cells as "#", the rest as "-", and "]". *)
Theorem narrow_bar_has_no_label (width filled mins secs tmins tsecs : Z) :
  Z.max 10 width <= 17 -> 0 <= filled <= Z.max 10 width - 2 ->
  15 <= slen (time_label mins secs tmins tsecs) /\
  progress_text width filled mins secs tmins tsecs = plain_bar (Z.max 10 width) filled.
Proof.
  intros Hw Hf. pose proof (slen_time_label mins secs tmins tsecs) as Hlabel.
  split; [exact Hlabel|].
  unfold progress_text, fit_label.
  rewrite slen_plain_bar.
  destruct (Z.ltb_spec (slen (time_label mins secs tmins tsecs))
              (2 + Z.max 0 filled + Z.max 0 (Z.max 10 width - 2 - filled) - 2)); [lia | reflexivity].
Qed.

Lemma narrow_bar_has_no_label_witness :
  15 <= slen (time_label 1 5 3 20) /\
  progress_text 12 3 1 5 3 20 = plain_bar (Z.max 10 12) 3.
Proof.
  apply (narrow_bar_has_no_label 12 3 1 5 3 20); lia.
Defined.

End ProgressProperties.

(** ** The command line of the player *)

Module F64Nan.

Local Open Scope float_scope.

Lemma is_nan_spec x : is_nan x = true -> Prim2SF x = S754_nan.
Proof.
  unfold is_nan. rewrite negb_true_iff, FloatAxioms.eqb_spec. unfold SFeqb.
  destruct (Prim2SF x) as [s|s| |s m e]; cbn; try discriminate; try reflexivity.
  - destruct s; discriminate.
  - rewrite Z.compare_refl.
    change (PosDef.Pos.compare_cont Eq m m) with (Pos.compare m m).
    rewrite Pos.compare_refl. destruct s; discriminate.
Qed.

Lemma ltb_nan_r x y : Prim2SF y = S754_nan -> (x <? y) = false.
Proof.
  intros H. rewrite FloatAxioms.ltb_spec, H. unfold SFltb.
  destruct (Prim2SF x); reflexivity.
Qed.

Lemma ltb_abs_nan x y : is_nan y = true -> (x <? abs y) = false.
Proof.
  intros H. apply ltb_nan_r. rewrite FloatAxioms.abs_spec, (is_nan_spec _ H). reflexivity.
Qed.

Lemma ltb_abs_sub_nan x y z : is_nan y = true -> (x <? abs (y - z)) = false.
Proof.
  intros H. apply ltb_nan_r. rewrite FloatAxioms.abs_spec, FloatAxioms.sub_spec, (is_nan_spec _ H).
  reflexivity.
Qed.

End F64Nan.

Section PlayerProperties.

Import Player.

Variable pow2 : float -> option float.
Variable str_float : float -> string.
Variable fixed6 : float -> string.

(** X15.  Whenever [build_ffplay_cmd] returns, the command is the five fixed
    arguments, then "-af" and one filter chain if and only if the pitch is
    more than 1e-6 away from 0 or the tempo more than 1e-6 away from 1, then
    the audio path as the last argument; it raises only when the pitch is
    that far from 0. *)
Theorem build_ffplay_cmd_shape (audio : string) (tempo pitch : float) :
  let pitched := (1e-6 <? abs pitch)%float in
  let paced := (1e-6 <? abs (tempo - 1))%float in
  match build_ffplay_cmd pow2 str_float fixed6 audio tempo pitch with
  | inr args =>
      if pitched || paced
      then exists chain, args = base_args ++ ["-af"%string; chain; audio]
      else args = base_args ++ [audio]
  | inl _ => pitched = true
  end.
Proof.
  intros pitched paced. unfold build_ffplay_cmd, pitch_filters, tempo_filters.
  fold pitched paced. destruct pitched.
  - destruct (pow2 (pitch / 12)%float) as [ratio|]; [|reflexivity].
    destruct (ratio =? 0)%float; [reflexivity|].
    cbn [orb app]. eexists. reflexivity.
  - destruct paced; cbn [orb app].
    + eexists. reflexivity.
    + reflexivity.
Qed.

(** X16.  A tempo or a pitch that is NaN is ignored: it adds no filter and
    raises nothing, so with both NaN the command is the five fixed arguments
    and the audio path. *)
Theorem build_ffplay_cmd_ignores_nan (audio : string) (tempo pitch : float) :
  (is_nan pitch = true -> pitch_filters pow2 str_float fixed6 pitch = inr []) /\
  (is_nan tempo = true -> tempo_filters fixed6 tempo = []) /\
  (is_nan pitch = true -> is_nan tempo = true ->
   build_ffplay_cmd pow2 str_float fixed6 audio tempo pitch = inr (base_args ++ [audio])).
Proof.
  assert (Hp : is_nan pitch = true -> pitch_filters pow2 str_float fixed6 pitch = inr []).
  { intros H. unfold pitch_filters. rewrite (F64Nan.ltb_abs_nan _ _ H). reflexivity. }
  assert (Ht : is_nan tempo = true -> tempo_filters fixed6 tempo = []).
  { intros H. unfold tempo_filters. rewrite (F64Nan.ltb_abs_sub_nan _ _ _ H). reflexivity. }
  split; [exact Hp|]. split; [exact Ht|].
  intros Hpitch Htempo. unfold build_ffplay_cmd. rewrite (Hp Hpitch), (Ht Htempo). reflexivity.
Qed.

End PlayerProperties.

Lemma build_ffplay_cmd_ignores_nan_witness :
  Player.build_ffplay_cmd (fun x => Some x) (fun _ => "r"%string) (fun _ => "f"%string)
    "song.mp3" nan nan =
  inr (Player.base_args ++ ["song.mp3"%string]).
Proof.
  apply (build_ffplay_cmd_ignores_nan (fun x => Some x) (fun _ => "r"%string)
           (fun _ => "f"%string) "song.mp3" nan nan); reflexivity.
Defined.

(** ** Timestamps and the times written in the tags *)

Module F64More.

Local Open Scope float_scope.

Lemma SFltb_trans x y z : SFltb x y = true -> SFltb y z = true -> SFltb x z = true.
Proof.
  unfold SFltb.
  F64.sf_cases x; F64.sf_cases y; F64.sf_cases z; intros; F64.cmp_split.
Qed.

Lemma SFltb_SFeqb_false x y : SFltb y x = true -> SFeqb x y = false.
Proof.
  unfold SFltb, SFeqb.
  F64.sf_cases x; F64.sf_cases y; intros; F64.cmp_split.
Qed.

Lemma ltb_trans x y z : (x <? y) = true -> (y <? z) = true -> (x <? z) = true.
Proof. rewrite !FloatAxioms.ltb_spec. apply SFltb_trans. Qed.

Lemma ltb_eqb_false x y : (y <? x) = true -> (x =? y) = false.
Proof. rewrite FloatAxioms.ltb_spec, FloatAxioms.eqb_spec. apply SFltb_SFeqb_false. Qed.

Lemma ltb_asym x y : (x <? y) = true -> (y <? x) = false.
Proof.
  intros H. destruct (y <? x) eqn:E; [|reflexivity].
  apply F64.ltb_leb in E. rewrite (F64.ltb_leb_false _ _ H) in E. discriminate E.
Qed.

Lemma ltb_irrefl x : (x <? x) = false.
Proof. destruct (x <? x) eqn:E; [|reflexivity]. rewrite (ltb_asym _ _ E) in E. discriminate E. Qed.

End F64More.

Section StampOrder.

Lemma stamps_ordered_true : all_upto 6040 stamp_row_ok = true.
Proof. vm_compute. reflexivity. Qed.

Lemma stamp_step (n f : Z) :
  0 <= n < 6040 -> 0 <= f < 100 -> stamp_step_ok n f = true.
Proof.
  intros Hn Hf.
  pose proof (all_upto_spec 6040 stamp_row_ok stamps_ordered_true n Hn) as H.
  unfold stamp_row_ok in H. apply andb_true_iff in H. destruct H as [H _].
  exact (all_upto_spec 100 (stamp_step_ok n) H f Hf).
Qed.

Lemma tenths_same (n f : Z) :
  0 <= n < 6040 -> 0 <= f < 10 -> stamp_value n f true = stamp_value n (10 * f) false.
Proof.
  intros Hn Hf.
  pose proof (all_upto_spec 6040 stamp_row_ok stamps_ordered_true n Hn) as H.
  unfold stamp_row_ok in H. apply andb_true_iff in H. destruct H as [_ H].
  pose proof (all_upto_spec 10 (tenths_ok n) H f Hf) as Hf'. unfold tenths_ok in Hf'.
  apply FloatAxioms.Leibniz.eqb_spec in Hf'. exact Hf'.
Qed.

Lemma centi_split (n f : Z) : 0 <= f < 100 -> (100 * n + f) / 100 = n /\ (100 * n + f) mod 100 = f.
Proof.
  intros Hf. split.
  - symmetry. apply (Z.div_unique _ 100 n f); lia.
  - symmetry. apply (Z.mod_unique _ 100 n f); lia.
Qed.

Lemma centi_stamp_at (n f : Z) :
  0 <= f < 100 -> centi_stamp (100 * n + f) = stamp_value n f false.
Proof.
  intros Hf. unfold centi_stamp. destruct (centi_split n f Hf) as [-> ->]. reflexivity.
Qed.

Lemma centi_parts (c : Z) :
  0 <= c < 604000 -> c = 100 * (c / 100) + c mod 100 /\ 0 <= c / 100 < 6040 /\ 0 <= c mod 100 < 100.
Proof.
  intros Hc. pose proof (Z.div_mod c 100 ltac:(lia)). pose proof (Z.mod_pos_bound c 100 ltac:(lia)).
  split; [assumption|]. split; [|assumption]. lia.
Qed.

Lemma centi_stamp_range (c : Z) :
  0 <= c < 604000 ->
  (0 <=? centi_stamp c)%float = true /\ (centi_stamp c <? 6040)%float = true.
Proof.
  intros Hc. destruct (centi_parts c Hc) as [_ [Hn Hf]].
  pose proof (stamp_step _ _ Hn Hf) as H. unfold stamp_step_ok in H.
  apply andb_true_iff in H. destruct H as [H _].
  apply andb_true_iff in H. exact H.
Qed.

Lemma centi_stamp_step (c : Z) :
  0 <= c < 604000 -> (centi_stamp c <? centi_stamp (c + 1))%float = true.
Proof.
  intros Hc. destruct (centi_parts c Hc) as [Hsplit [Hn Hf]].
  pose proof (stamp_step _ _ Hn Hf) as H. unfold stamp_step_ok in H.
  apply andb_true_iff in H. destruct H as [_ H].
  set (n := c / 100) in *. set (f := c mod 100) in *.
  fold (centi_stamp c) in H.
  destruct (Z.ltb_spec f 99) as [Hlow|Hlast].
  - replace (c + 1) with (100 * n + (f + 1)) by lia.
    rewrite centi_stamp_at by lia. exact H.
  - replace (c + 1) with (100 * (n + 1) + 0) by lia.
    rewrite centi_stamp_at by lia. exact H.
Qed.

Lemma centi_stamp_mono_aux (k : nat) :
  forall c : Z, 0 <= c -> c + Z.of_nat (S k) <= 604000 ->
                (centi_stamp c <? centi_stamp (c + Z.of_nat (S k)))%float = true.
Proof.
  induction k as [|k IH]; intros c Hc Hk.
  - apply centi_stamp_step. lia.
  - apply F64More.ltb_trans with (y := centi_stamp (c + Z.of_nat (S k))).
    + apply IH; lia.
    + replace (c + Z.of_nat (S (S k))) with (c + Z.of_nat (S k) + 1) by lia.
      apply centi_stamp_step. lia.
Qed.

(** The parser's timestamps grow strictly with the time written. *)
Lemma centi_stamp_mono (c1 c2 : Z) :
  0 <= c1 -> c1 < c2 -> c2 <= 604000 ->
  (centi_stamp c1 <? centi_stamp c2)%float = true.
Proof.
  intros H1 H12 H2.
  replace c2 with (c1 + Z.of_nat (S (Z.to_nat (c2 - c1 - 1)))) by lia.
  apply centi_stamp_mono_aux; lia.
Qed.

Lemma line_of_match_centis (text : string) (m : Match) :
  valid_match m ->
  0 <= centis m < 604000 /\ LyricIndex.t (line_of_match text m) = centi_stamp (centis m).
Proof.
  intros [[m1 [m2 [Hm1 [Hm2 G1]]]] [[s1 [s2 [Hs1 [Hs2 G2]]]] G3]].
  apply digit_value_range in Hm1, Hm2, Hs1, Hs2.
  unfold line_of_match, centis. rewrite G1, G2, !int_str2.
  set (n := (digit_value m1 * 10 + digit_value m2) * 60 + (digit_value s1 * 10 + digit_value s2)).
  assert (Hn : 0 <= n < 6040) by (unfold n; lia).
  destruct G3 as [G3 | [[f1 [Hf1 G3]] | [f1 [f2 [Hf1 [Hf2 G3]]]]]]; rewrite G3; cbn [LyricIndex.t].
  - split; [lia|].
    replace (n * 100 + 0) with (100 * n + 10 * 0) by lia. rewrite centi_stamp_at by lia.
    rewrite <- tenths_same by lia. reflexivity.
  - apply digit_value_range in Hf1.
    cbn [String.length str1 Nat.eqb]. rewrite int_str1. split; [lia|].
    replace (n * 100 + 10 * digit_value f1) with (100 * n + 10 * digit_value f1) by lia.
    rewrite centi_stamp_at by lia.
    rewrite <- tenths_same by lia. reflexivity.
  - apply digit_value_range in Hf1, Hf2.
    cbn [String.length str2 Nat.eqb substring]. fold (str2 f1 f2). rewrite int_str2.
    split; [lia|].
    replace (n * 100 + (digit_value f1 * 10 + digit_value f2))
      with (100 * n + (digit_value f1 * 10 + digit_value f2)) by lia.
    rewrite centi_stamp_at by lia. reflexivity.
Qed.

End StampOrder.

Section ParsedLines.

Lemma lines_of_raw_from_matches (raw : string) (l : Line) :
  In l (lines_of_raw raw) ->
  exists m, valid_match m /\
            l = line_of_match (strip (sub_stamps (rstrip_newline raw))) m.
Proof.
  unfold lines_of_raw.
  pose proof (finditer_from_valid (rstrip_newline raw) 0) as Hv.
  fold (finditer (rstrip_newline raw)) in Hv.
  destruct (finditer (rstrip_newline raw)) as [|m0 ms]; [intros []|].
  intros Hin. apply in_map_iff in Hin. destruct Hin as [m [Hl Hm]].
  exists m. split; [|symmetry; exact Hl].
  rewrite Forall_forall in Hv. apply Hv. exact Hm.
Qed.

Lemma collect_from_matches (data : string) (l : Line) :
  In l (collect data) ->
  exists raw m, valid_match m /\
                l = line_of_match (strip (sub_stamps (rstrip_newline raw))) m.
Proof.
  unfold collect. intros Hin. apply in_flat_map in Hin. destruct Hin as [raw [_ Hl]].
  exists raw. apply lines_of_raw_from_matches. exact Hl.
Qed.

Lemma parse_lrc_from_matches (data : string) (l : Line) :
  In l (parse_lrc data) ->
  exists raw m, valid_match m /\
                l = line_of_match (strip (sub_stamps (rstrip_newline raw))) m.
Proof.
  intros Hin. apply collect_from_matches with (data := data).
  apply (Permutation_in l (Permutation_sym (sort_by_perm LyricIndex.t (collect data)))).
  exact Hin.
Qed.

End ParsedLines.

Section StampProperties.

(** X17.  Timestamps order as the times are written.  For two tags the
    regular expression matches, the timestamp of the first is below (equal
    to) that of the second exactly when the time it denotes in hundredths of
    a second, (MM*60 + SS)*100 plus the fraction, is below (equal to) the
    other's; two tags that denote the same time, such as [00:60.5] and
    [01:00.50], get the same float.  Rounding neither merges nor reorders two
    different times. *)
Theorem timestamps_order_as_written (s1 s2 : string) (m1 m2 : Match) (r1 r2 text1 text2 : string) :
  match_stamp s1 = Some (m1, r1) -> match_stamp s2 = Some (m2, r2) ->
  let t1 := LyricIndex.t (line_of_match text1 m1) in
  let t2 := LyricIndex.t (line_of_match text2 m2) in
  (t1 <? t2)%float = (centis m1 <? centis m2) /\
  (t1 =? t2)%float = (centis m1 =? centis m2) /\
  (centis m1 = centis m2 -> t1 = t2).
Proof.
  intros H1 H2 t1 t2.
  apply match_stamp_valid in H1, H2.
  destruct (line_of_match_centis text1 m1 H1) as [Hc1 E1].
  destruct (line_of_match_centis text2 m2 H2) as [Hc2 E2].
  destruct (line_of_match_stamp text2 m2 H2) as [n [f [b [Hn [Hf E2']]]]].
  pose proof (stamp_value_not_nan n f b Hn Hf) as Hnan. rewrite <- E2' in Hnan.
  fold t2 in Hnan, E2. fold t1 in E1.
  assert (Hrefl : (t2 =? t2)%float = true)
    by (unfold is_nan in Hnan; apply negb_false_iff in Hnan; exact Hnan).
  destruct (Z.lt_trichotomy (centis m1) (centis m2)) as [Hlt | [Heq | Hgt]].
  - pose proof (centi_stamp_mono (centis m1) (centis m2) ltac:(lia) Hlt ltac:(lia)) as Hmono.
    rewrite <- E1, <- E2 in Hmono.
    rewrite Hmono, (F64.ltb_eqb_class _ _ _ Hmono Hrefl).
    split; [symmetry; apply Z.ltb_lt; exact Hlt|].
    split; [symmetry; apply Z.eqb_neq; lia | lia].
  - assert (Hsame : t1 = t2) by (rewrite E1, E2, Heq; reflexivity).
    rewrite Hsame, F64More.ltb_irrefl, Hrefl. rewrite Heq.
    split; [symmetry; apply Z.ltb_irrefl|].
    split; [symmetry; apply Z.eqb_refl | reflexivity].
  - pose proof (centi_stamp_mono (centis m2) (centis m1) ltac:(lia) Hgt ltac:(lia)) as Hmono.
    rewrite <- E1, <- E2 in Hmono.
    rewrite (F64More.ltb_asym _ _ Hmono), (F64More.ltb_eqb_false _ _ Hmono).
    split; [symmetry; apply Z.ltb_ge; lia|].
    split; [symmetry; apply Z.eqb_neq; lia | lia].
Qed.

Lemma timestamps_order_as_written_witness :
  let t1 := LyricIndex.t (line_of_match "a"
                 {| group1 := "00"; group2 := "60"; group3 := Some "5"%string |}) in
  let t2 := LyricIndex.t (line_of_match "b"
                 {| group1 := "01"; group2 := "00"; group3 := Some "50"%string |}) in
  (t1 <? t2)%float =
    (centis {| group1 := "00"; group2 := "60"; group3 := Some "5"%string |} <?
     centis {| group1 := "01"; group2 := "00"; group3 := Some "50"%string |}) /\
  (t1 =? t2)%float =
    (centis {| group1 := "00"; group2 := "60"; group3 := Some "5"%string |} =?
     centis {| group1 := "01"; group2 := "00"; group3 := Some "50"%string |}) /\
  (centis {| group1 := "00"; group2 := "60"; group3 := Some "5"%string |} =
   centis {| group1 := "01"; group2 := "00"; group3 := Some "50"%string |} -> t1 = t2).
Proof.
  apply (timestamps_order_as_written "[00:60.5]a" "[01:00.50]b" _ _ "a" "b" "a" "b");
    reflexivity.
Defined.

(** X18.  Every line of a parsed track has a timestamp of at least 0 and
    below 6040 seconds: no tag gives a negative, infinite or NaN time. *)
Theorem parsed_timestamps_in_range (data : string) (l : Line) :
  In l (parse_lrc data) ->
  (0 <=? LyricIndex.t l)%float = true /\ (LyricIndex.t l <? 6040)%float = true.
Proof.
  intros Hin. destruct (parse_lrc_from_matches data l Hin) as [raw [m [Hm ->]]].
  destruct (line_of_match_centis (strip (sub_stamps (rstrip_newline raw))) m Hm) as [Hc ->].
  apply centi_stamp_range. exact Hc.
Qed.

Lemma parsed_timestamps_in_range_witness :
  (0 <=? LyricIndex.t {| t := 1.5; text := "Hello" |})%float = true /\
  (LyricIndex.t {| t := 1.5; text := "Hello" |} <? 6040)%float = true.
Proof.
  apply (parsed_timestamps_in_range scenario {| t := 1.5; text := "Hello" |}).
  vm_compute. left. reflexivity.
Defined.

End StampProperties.

(** ** The text of a line, and files without tags *)

Section TextFacts.


Lemma rstrip_with_idem (p : ascii -> bool) (s : string) :
  rstrip_with p (rstrip_with p s) = rstrip_with p s.
Proof.
  induction s as [|c s IH]; [reflexivity|].
  cbn [rstrip_with]. destruct (rstrip_with p s) as [|d r] eqn:E.
  - destruct (p c) eqn:Hc; [reflexivity|].
    cbn [rstrip_with str1]. rewrite Hc. reflexivity.
  - cbn [rstrip_with]. cbn [rstrip_with] in IH.
    destruct (rstrip_with p r) as [|e r'] eqn:E'.
    + destruct (p d) eqn:Hd; [discriminate IH|]. rewrite IH. reflexivity.
    + rewrite IH. reflexivity.
Qed.



Lemma match_stamp_bracket (c : ascii) (s : string) :
  is_bracket c = false -> match_stamp (String c s) = None.
Proof.
  intros Hc. unfold match_stamp, lit. unfold is_bracket in Hc. rewrite Hc. reflexivity.
Qed.

Lemma finditer_from_free (s : string) :
  free_of is_bracket s = true -> forall k, finditer_from s k = [].
Proof.
  induction s as [|c s IH]; intros Hfree k; [reflexivity|].
  cbn [free_of] in Hfree. apply andb_true_iff in Hfree. destruct Hfree as [Hc Hs].
  apply negb_true_iff in Hc. cbn [finditer_from].
  destruct k as [|k]; [|apply IH; exact Hs].
  rewrite (match_stamp_bracket c s Hc). apply IH. exact Hs.
Qed.

Lemma rstrip_with_free (p q : ascii -> bool) (s : string) :
  free_of p s = true -> free_of p (rstrip_with q s) = true.
Proof.
  induction s as [|c s IH]; intros Hfree; [reflexivity|].
  cbn [free_of] in Hfree. apply andb_true_iff in Hfree. destruct Hfree as [Hc Hs].
  specialize (IH Hs). cbn [rstrip_with].
  destruct (rstrip_with q s) as [|d r].
  - destruct (q c); [reflexivity|]. cbn [str1 free_of]. rewrite Hc. reflexivity.
  - cbn [free_of] in IH |- *. rewrite Hc, IH. reflexivity.
Qed.

Lemma readlines_free (p : ascii -> bool) (s : string) :
  free_of p s = true -> Forall (fun line => free_of p line = true) (readlines s).
Proof.
  induction s as [|c s IH]; intros Hfree; [constructor|].
  cbn [free_of] in Hfree. apply andb_true_iff in Hfree. destruct Hfree as [Hc Hs].
  specialize (IH Hs). cbn [readlines].
  destruct (Ascii.eqb c LF).
  - constructor; [|exact IH]. cbn [str1 free_of]. rewrite Hc. reflexivity.
  - destruct (readlines s) as [|l ls].
    + constructor; [|constructor]. cbn [str1 free_of]. rewrite Hc. reflexivity.
    + inversion IH as [|? ? Hl Hls]; subst. constructor; [|exact Hls].
      cbn [free_of]. rewrite Hc, Hl. reflexivity.
Qed.

Lemma universal_newlines_free (s : string) :
  free_of is_bracket s = true -> free_of is_bracket (universal_newlines s) = true.
Proof.
  induction s as [|c s IH]; intros Hfree; [reflexivity|].
  cbn [free_of] in Hfree. apply andb_true_iff in Hfree. destruct Hfree as [Hc Hs].
  specialize (IH Hs). cbn [universal_newlines].
  destruct (Ascii.eqb c CR).
  - destruct s as [|d s']; [reflexivity|].
    destruct (Ascii.eqb d LF); [exact IH|].
    cbn [free_of]. rewrite IH. reflexivity.
  - cbn [free_of]. rewrite Hc, IH. reflexivity.
Qed.

Lemma collect_free (data : string) : free_of is_bracket data = true -> collect data = [].
Proof.
  intros Hfree. unfold collect.
  pose proof (readlines_free is_bracket _ (universal_newlines_free data Hfree)) as Hlines.
  induction Hlines as [|raw raws Hraw _ IH]; [reflexivity|].
  cbn [flat_map]. rewrite IH. unfold lines_of_raw, finditer, rstrip_newline. cbv zeta.
  rewrite (finditer_from_free _ (rstrip_with_free is_bracket (Ascii.eqb LF) raw Hraw)).
  reflexivity.
Qed.

Lemma universal_newlines_dos (s : string) :
  free_of is_cr s = true -> universal_newlines (dos_newlines s) = s.
Proof.
  induction s as [|c s IH]; intros Hfree; [reflexivity|].
  cbn [free_of] in Hfree. apply andb_true_iff in Hfree. destruct Hfree as [Hc Hs].
  apply negb_true_iff in Hc. unfold is_cr in Hc. specialize (IH Hs).
  cbn [dos_newlines]. destruct (Ascii.eqb c LF) eqn:Hlf.
  - apply Ascii.eqb_eq in Hlf. subst c.
    cbn [universal_newlines].
    change (Ascii.eqb CR CR) with true. change (Ascii.eqb LF LF) with true.
    change (Ascii.eqb LF CR) with false. cbv iota. rewrite IH. reflexivity.
  - cbn [universal_newlines]. rewrite Hc, IH. reflexivity.
Qed.

Lemma mac_newlines_head (s : string) :
  mac_newlines s = EmptyString \/
  exists d r, mac_newlines s = String d r /\ Ascii.eqb d LF = false.
Proof.
  destruct s as [|c s]; [left; reflexivity|]. right. cbn [mac_newlines].
  destruct (Ascii.eqb c LF) eqn:Hlf.
  - exists CR, (mac_newlines s). split; reflexivity.
  - exists c, (mac_newlines s). split; [reflexivity | exact Hlf].
Qed.

Lemma universal_newlines_mac (s : string) :
  free_of is_cr s = true -> universal_newlines (mac_newlines s) = s.
Proof.
  induction s as [|c s IH]; intros Hfree; [reflexivity|].
  cbn [free_of] in Hfree. apply andb_true_iff in Hfree. destruct Hfree as [Hc Hs].
  apply negb_true_iff in Hc. unfold is_cr in Hc. specialize (IH Hs).
  cbn [mac_newlines]. destruct (Ascii.eqb c LF) eqn:Hlf.
  - apply Ascii.eqb_eq in Hlf. subst c. cbn [universal_newlines].
    change (Ascii.eqb CR CR) with true. cbv iota.
    destruct (mac_newlines_head s) as [E | [d [r [E Hd]]]].
    + rewrite E in IH |- *. cbn [universal_newlines] in IH. rewrite <- IH. reflexivity.
    + rewrite E in IH |- *. rewrite Hd, IH. reflexivity.
  - cbn [universal_newlines]. rewrite Hc, IH. reflexivity.
Qed.

Lemma universal_newlines_unix (s : string) :
  free_of is_cr s = true -> universal_newlines s = s.
Proof.
  induction s as [|c s IH]; intros Hfree; [reflexivity|].
  cbn [free_of] in Hfree. apply andb_true_iff in Hfree. destruct Hfree as [Hc Hs].
  apply negb_true_iff in Hc. unfold is_cr in Hc.
  cbn [universal_newlines]. rewrite Hc, (IH Hs). reflexivity.
Qed.

Lemma sorted_below_last {A : Type} (R : A -> A -> Prop) (l : list A) (d : A) :
  StronglySorted R l -> forall x, In x l -> x = last l d \/ R x (last l d).
Proof.
  induction 1 as [|y l Hs IH Hall]; intros x Hin; [destruct Hin|].
  destruct l as [|z l'].
  - destruct Hin as [<- | []]. left. reflexivity.
  - change (last (y :: z :: l') d) with (last (z :: l') d).
    destruct Hin as [<- | Hin].
    + right. rewrite Forall_forall in Hall. apply Hall.
      destruct (@exists_last _ (z :: l') ltac:(discriminate)) as [front [e E]].
      rewrite E, last_last. apply in_or_app. right. left. reflexivity.
    + apply IH. exact Hin.
Qed.

End TextFacts.

Section TextProperties.



(** X20.  A lyrics file without any "[" holds no tag: its track is empty and
    the session ends in the error for an empty track, without launching the
    player. *)
Theorem file_without_bracket_is_empty (data : string) :
  free_of is_bracket data = true ->
  parse_lrc data = [] /\
  forall (player_found : bool) (started offset : float) (inputs : list TickInput),
    karaoke data player_found started offset inputs = ([], SystemExit no_lyrics).
Proof.
  intros Hfree.
  assert (Hempty : parse_lrc data = [])
    by (unfold parse_lrc; rewrite (collect_free data Hfree); reflexivity).
  split; [exact Hempty|].
  intros player_found started offset inputs. unfold karaoke. rewrite Hempty. reflexivity.
Qed.

Lemma file_without_bracket_is_empty_witness :
  parse_lrc "ti: Song 00:12.34 ]" = [] /\
  forall (player_found : bool) (started offset : float) (inputs : list TickInput),
    karaoke "ti: Song 00:12.34 ]" player_found started offset inputs =
    ([], SystemExit no_lyrics).
Proof.
  apply (file_without_bracket_is_empty "ti: Song 00:12.34 ]"). reflexivity.
Defined.

(** X21.  The way the file ends its lines does not matter: a text whose
    lines end in "\n" parses to the same track when every "\n" is written
    "\r\n" and when it is written "\r". *)
Theorem newline_style_is_irrelevant (data : string) :
  free_of is_cr data = true ->
  parse_lrc (dos_newlines data) = parse_lrc data /\
  parse_lrc (mac_newlines data) = parse_lrc data.
Proof.
  intros Hfree. unfold parse_lrc, collect.
  rewrite (universal_newlines_dos data Hfree), (universal_newlines_mac data Hfree),
    (universal_newlines_unix data Hfree).
  split; reflexivity.
Qed.

Lemma newline_style_is_irrelevant_witness :
  parse_lrc (dos_newlines scenario) = parse_lrc scenario /\
  parse_lrc (mac_newlines scenario) = parse_lrc scenario.
Proof.
  apply (newline_style_is_irrelevant scenario). reflexivity.
Defined.

(** X22.  [last_stamp], the timestamp of the last line of the parsed track,
    is the greatest timestamp of the track: no line is later than it. *)
Theorem last_stamp_is_greatest (data : string) (first : Line) (rest : list Line) (l : Line) :
  parse_lrc data = first :: rest -> In l (first :: rest) ->
  (LyricIndex.t l <=? LyricIndex.t (last (first :: rest) first))%float = true.
Proof.
  intros Hparse Hin.
  pose proof (sort_by_sorted LyricIndex.t (collect data) (collect_not_nan data)) as Hs.
  fold (parse_lrc data) in Hs. rewrite Hparse in Hs.
  destruct (sorted_below_last _ _ first Hs l Hin) as [-> | Hle]; [|exact Hle].
  assert (Hlast : In (last (first :: rest) first) (parse_lrc data)).
  { rewrite Hparse.
    destruct (@exists_last _ (first :: rest) ltac:(discriminate)) as [front [e E]].
    rewrite E, last_last. apply in_or_app. right. left. reflexivity. }
  destruct (parse_lrc_from_matches data _ Hlast) as [raw [m [Hm E]]].
  destruct (line_of_match_stamp (strip (sub_stamps (rstrip_newline raw))) m Hm)
    as [n [f [b [Hn [Hf Hval]]]]].
  pose proof (stamp_value_not_nan n f b Hn Hf) as Hnan.
  rewrite <- Hval, <- E in Hnan.
  apply F64.leb_total; [exact Hnan | exact Hnan | apply F64More.ltb_irrefl].
Qed.

Lemma last_stamp_is_greatest_witness :
  (LyricIndex.t {| t := 1.5; text := "Hello" |} <=?
   LyricIndex.t (last scenario_track {| t := 1.5; text := "Hello" |}))%float = true.
Proof.
  apply (last_stamp_is_greatest scenario {| t := 1.5; text := "Hello" |}
           [ {| t := 3; text := "World" |}; {| t := 3; text := "Again" |} ]
           {| t := 1.5; text := "Hello" |}).
  - vm_compute. reflexivity.
  - left. reflexivity.
Defined.

End TextProperties.

(** ** Lines with several tags *)

Section FinditerFacts.

Lemma leaves_here (rest : string) : leaves rest rest 0.
Proof. exists EmptyString. split; reflexivity. Qed.

Lemma leaves_cons (c : ascii) (rest s : string) (n : nat) :
  leaves rest s n -> leaves rest (String c s) (S n).
Proof.
  intros [pre [-> <-]]. exists (String c pre). split; reflexivity.
Qed.

Ltac open_step H :=
  match type of H with
  | context [bind (lit ?c ?r) _] =>
      let E := fresh "E" in
      destruct (lit c r) eqn:E; [apply lit_inv in E|]
  | context [bind (digit ?r) _] =>
      let E := fresh "E" in
      let D := fresh "D" in
      destruct (digit r) as [[? ?]|] eqn:E; [apply digit_inv in E; destruct E as [D E]|]
  end; cbn [bind orelse] in H.

Ltac same_string :=
  repeat match goal with
  | E : String _ _ = String _ _ |- _ => injection E as ? ?; subst
  end.

(** A match covers at least 7 characters of the string and leaves a suffix
    of it. *)
Lemma match_stamp_leaves (s : string) (m : Match) (rest : string) :
  match_stamp s = Some (m, rest) -> exists n, leaves rest s (S n).
Proof.
  unfold match_stamp. intros H. cbv zeta in H.
  repeat open_step H; try discriminate H;
    injection H as _ Hr; subst; same_string; try discriminate;
    eexists; repeat (apply leaves_cons); apply leaves_here.
Qed.

Lemma length_append (a b : string) :
  String.length (a ++ b) = (String.length a + String.length b)%nat.
Proof. induction a as [|c a IH]; cbn; [reflexivity | rewrite IH; reflexivity]. Qed.

Lemma finditer_from_skip (pre rest : string) :
  finditer_from (pre ++ rest) (String.length pre) = finditer rest /\
  sub_from (pre ++ rest) (String.length pre) = sub_stamps rest.
Proof.
  induction pre as [|c pre IH].
  - cbn [append String.length]. unfold finditer, sub_stamps. split; reflexivity.
  - cbn [append String.length finditer_from sub_from]. exact IH.
Qed.

(** Where the expression matches, [finditer] yields the match and goes on
    after it, and [sub] drops the matched characters. *)
Lemma finditer_at_match (s : string) (m : Match) (rest : string) :
  match_stamp s = Some (m, rest) ->
  finditer s = m :: finditer rest /\ sub_stamps s = sub_stamps rest.
Proof.
  intros H. destruct (match_stamp_leaves s m rest H) as [n [pre [Hs Hlen]]].
  destruct pre as [|c pre]; [discriminate Hlen|]. cbn [String.length] in Hlen.
  unfold finditer, sub_stamps. subst s. cbn [append] in *.
  cbn [finditer_from sub_from]. rewrite H.
  cbn [String.length]. rewrite length_append.
  replace (S (String.length pre + String.length rest) - String.length rest - 1)%nat
    with (String.length pre) by lia.
  destruct (finditer_from_skip pre rest) as [-> ->]. split; reflexivity.
Qed.

Lemma sub_from_free (s : string) :
  free_of is_bracket s = true -> sub_stamps s = s.
Proof.
  unfold sub_stamps. induction s as [|c s IH]; intros Hfree; [reflexivity|].
  cbn [free_of] in Hfree. apply andb_true_iff in Hfree. destruct Hfree as [Hc Hs].
  apply negb_true_iff in Hc. cbn [sub_from].
  rewrite (match_stamp_bracket c s Hc), (IH Hs). reflexivity.
Qed.

End FinditerFacts.

Section TagsProperties.

(** X23.  A line that starts with two tags followed by a text without "["
    gives exactly two lines, one per tag and in the order of the tags, both
    with the stripped text: each tag of a line gets the whole line's text. *)
Theorem two_tags_share_the_text (raw mid txt : string) (m1 m2 : Match) :
  rstrip_newline raw = raw ->
  match_stamp raw = Some (m1, mid) -> match_stamp mid = Some (m2, txt) ->
  free_of is_bracket txt = true ->
  lines_of_raw raw = [line_of_match (strip txt) m1; line_of_match (strip txt) m2].
Proof.
  intros Hraw H1 H2 Hfree. unfold lines_of_raw. rewrite Hraw.
  destruct (finditer_at_match raw m1 mid H1) as [F1 S1].
  destruct (finditer_at_match mid m2 txt H2) as [F2 S2].
  rewrite F1, F2, S1, S2, (sub_from_free txt Hfree).
  unfold finditer. rewrite (finditer_from_free txt Hfree). reflexivity.
Qed.

Lemma two_tags_share_the_text_witness :
  lines_of_raw "[00:10][01:10.5] la la " =
  [ line_of_match (strip " la la ") {| group1 := "00"; group2 := "10"; group3 := None |};
    line_of_match (strip " la la ")
      {| group1 := "01"; group2 := "10"; group3 := Some "5"%string |} ].
Proof.
  apply (two_tags_share_the_text "[00:10][01:10.5] la la " "[01:10.5] la la " " la la ");
    reflexivity.
Defined.

End TagsProperties.

(** ** The order of the lines of the file *)

Section LineOrder.

Lemma universal_newlines_split (a b : string) :
  exists V,
    universal_newlines (a ++ String LF b) = (V ++ String LF (universal_newlines b))%string /\
    (universal_newlines a = V \/ universal_newlines a = (V ++ str1 LF)%string).
Proof.
  induction a as [|c a IH].
  - exists EmptyString. split; [reflexivity | left; reflexivity].
  - destruct IH as [V [HV Hor]].
    cbn [append universal_newlines]. destruct (Ascii.eqb c CR).
    + destruct a as [|d a'].
      * cbn [append]. change (Ascii.eqb LF LF) with true. cbv iota.
        exists EmptyString. split; [reflexivity | right; reflexivity].
      * cbn [append] in HV |- *. destruct (Ascii.eqb d LF).
        -- exists V. split; [exact HV | exact Hor].
        -- exists (String LF V). cbn [append]. rewrite HV. split; [reflexivity|].
           destruct Hor as [-> | ->]; [left | right]; reflexivity.
    + exists (String c V). cbn [append]. rewrite HV. split; [reflexivity|].
      destruct Hor as [-> | ->]; [left | right]; reflexivity.
Qed.

Lemma readlines_terminated_nonempty (x : string) : readlines (x ++ str1 LF) <> [].
Proof.
  destruct x as [|c x]; cbn [append str1 readlines].
  - change (Ascii.eqb LF LF) with true. cbv iota. discriminate.
  - destruct (Ascii.eqb c LF); [discriminate|].
    destruct (readlines (x ++ str1 LF)); discriminate.
Qed.

Lemma readlines_append (x y : string) :
  readlines (x ++ String LF y) = readlines (x ++ str1 LF) ++ readlines y.
Proof.
  induction x as [|c x IH].
  - cbn [append str1 readlines]. change (Ascii.eqb LF LF) with true. reflexivity.
  - cbn [append readlines]. destruct (Ascii.eqb c LF).
    + rewrite IH. reflexivity.
    + rewrite IH. pose proof (readlines_terminated_nonempty x) as Hne.
      destruct (readlines (x ++ str1 LF)) as [|l ls]; [contradiction|]. reflexivity.
Qed.

Lemma rstrip_newline_cons (c : ascii) (l : string) :
  Ascii.eqb c LF = false -> rstrip_newline (String c l) = String c (rstrip_newline l).
Proof.
  intros Hc. unfold rstrip_newline. cbn [rstrip_with].
  destruct (rstrip_with (Ascii.eqb LF) l); [|reflexivity].
  rewrite Ascii.eqb_sym, Hc. reflexivity.
Qed.

Lemma readlines_nonempty (c : ascii) (x : string) : readlines (String c x) <> [].
Proof.
  cbn [readlines]. destruct (Ascii.eqb c LF); [discriminate|].
  destruct (readlines x); discriminate.
Qed.

Lemma open_end_cons (c d : ascii) (x : string) : open_end (String c (String d x)) = open_end (String d x).
Proof. reflexivity. Qed.

(** Closing the last line with "\n" changes the lines, read without their
    "\n", only by an empty line at the end when the last line was closed
    already. *)
Lemma stripped_lines_terminated (x : string) :
  map rstrip_newline (readlines (x ++ str1 LF)) =
  map rstrip_newline (readlines x) ++ (if open_end x then [] else [EmptyString]).
Proof.
  induction x as [|c x IH].
  - cbn [append str1 readlines]. change (Ascii.eqb LF LF) with true. reflexivity.
  - cbn [append readlines]. destruct (Ascii.eqb c LF) eqn:Hc.
    + cbn [map]. rewrite IH. cbn [app]. f_equal. f_equal.
      destruct x as [|d x]; [|reflexivity].
      cbn [open_end]. rewrite Hc. reflexivity.
    + pose proof (readlines_terminated_nonempty x) as Hne.
      destruct (readlines (x ++ str1 LF)) as [|l ls] eqn:E; [contradiction|].
      cbn [map] in IH |- *. rewrite (rstrip_newline_cons c l Hc).
      destruct x as [|d x].
      * cbn [append str1 readlines] in E. change (Ascii.eqb LF LF) with true in E.
        cbv iota in E. injection E as <- <-. cbn [readlines map open_end]. rewrite Hc.
        unfold str1. rewrite (rstrip_newline_cons c EmptyString Hc). reflexivity.
      * pose proof (readlines_nonempty d x) as Hne'.
        destruct (readlines (String d x)) as [|l' ls'] eqn:E'; [contradiction|].
        cbn [map app] in IH |- *. rewrite (rstrip_newline_cons c l' Hc).
        rewrite open_end_cons. injection IH as -> ->. reflexivity.
Qed.

Lemma lines_of_raw_stripped (raw : string) :
  lines_of_raw (rstrip_newline raw) = lines_of_raw raw.
Proof.
  unfold lines_of_raw, rstrip_newline. rewrite rstrip_with_idem. reflexivity.
Qed.

Lemma flat_map_stripped (lines : list string) :
  flat_map lines_of_raw (map rstrip_newline lines) = flat_map lines_of_raw lines.
Proof.
  induction lines as [|l ls IH]; [reflexivity|].
  cbn [map flat_map]. rewrite IH, lines_of_raw_stripped. reflexivity.
Qed.

Lemma lines_terminated (x : string) :
  flat_map lines_of_raw (readlines (x ++ str1 LF)) = flat_map lines_of_raw (readlines x).
Proof.
  rewrite <- (flat_map_stripped (readlines (x ++ str1 LF))), stripped_lines_terminated.
  rewrite flat_map_app, flat_map_stripped.
  destruct (open_end x); cbn [flat_map]; rewrite ?app_nil_r; reflexivity.
Qed.

Lemma collect_append (a b : string) :
  collect (a ++ String LF b) = collect a ++ collect b.
Proof.
  unfold collect.
  destruct (universal_newlines_split a b) as [V [-> Hor]].
  rewrite readlines_append, flat_map_app. f_equal.
  destruct Hor as [-> | ->]; [apply lines_terminated | reflexivity].
Qed.

End LineOrder.

Section LineOrderProperties.

(** X24.  The lines of the file are parsed one by one: a file made of a
    text, "\n" and another text collects the lines of the first followed by
    those of the second.  So the order in which the file lists its lines
    does not matter: swapping the two texts gives a track with the same
    lines. *)
Theorem line_order_is_irrelevant (a b : string) :
  collect (a ++ String LF b) = collect a ++ collect b /\
  Permutation (parse_lrc (a ++ String LF b)) (parse_lrc (b ++ String LF a)).
Proof.
  split; [apply collect_append|].
  unfold parse_lrc.
  apply perm_trans with (collect (a ++ String LF b));
    [apply Permutation_sym, sort_by_perm|].
  apply perm_trans with (collect (b ++ String LF a)); [|apply sort_by_perm].
  rewrite !collect_append. apply Permutation_app_comm.
Qed.

End LineOrderProperties.
